(** * x86 instruction selection and operand lowering (utility_x86.cc)

    A shallow embedding of [X86Codegen]'s utility layer: every emitting
    function of the source becomes a computation over the compilation
    unit (the instruction stream it appends to and the pool of temporary
    registers it borrows from) that either returns or aborts with a
    fatal fault. *)

From Stdlib Require Import ZArith Bool Lia.
From stdpp Require Import base list strings.

Local Open Scope Z_scope.

(** ** Catalogs *)

(** Operation kinds named by the selectors of utility_x86.cc. *)
Inductive OpKind :=
  | kOpMov | kOpMvn | kOpCmp | kOpLsl | kOpLsr | kOpAsr | kOpRor
  | kOpNot | kOpAnd | kOpOr | kOpXor | kOpNeg | kOpAdd | kOpAdc
  | kOpSub | kOpSbc | kOpMul | kOpBlx | kOp2Char | kOp2Short | kOp2Byte.

#[global] Instance OpKind_eq_dec : EqDecision OpKind.
Proof. solve_decision. Defined.

(** Operand sizes switched on by the load/store engine. *)
Inductive OpSize :=
  | kWord | kLong | kSingle | kDouble
  | kUnsignedHalf | kSignedHalf | kUnsignedByte | kSignedByte.

(** Concrete opcodes named in utility_x86.cc. *)
Inductive X86OpCode :=
  | kX86Bkpt | kX86Nop
  | kX86MovsdRR | kX86MovssRR | kX86MovdxrRR | kX86MovdrxRR
  | kX86XorpsRR | kX86OrpsRR | kX86PsllqRI
  | kX86Mov32RI | kX86Mov32RR
  | kX86Neg32R | kX86Not32R | kX86CallR | kX86CallT | kX86CallM
  | kX86Sal32RI | kX86Shr32RI | kX86Sar32RI
  | kX86Sal32RC | kX86Shr32RC | kX86Sar32RC
  | kX86Add32RI8 | kX86Add32RI | kX86Or32RI8 | kX86Or32RI
  | kX86Adc32RI8 | kX86Adc32RI | kX86And32RI8 | kX86And32RI
  | kX86Sub32RI8 | kX86Sub32RI | kX86Xor32RI8 | kX86Xor32RI
  | kX86Cmp32RI8 | kX86Cmp32RI
  | kX86Imul32RRI8 | kX86Imul32RRI | kX86Imul32RR
  | kX86Sub32RR | kX86Sbb32RR | kX86Cmp32RR | kX86Add32RR | kX86Adc32RR
  | kX86And32RR | kX86Or32RR | kX86Xor32RR
  | kX86Movsx8RR | kX86Movsx16RR | kX86Movzx8RR | kX86Movzx16RR
  | kX86Sub32RM | kX86Mov32RM | kX86Cmp32RM | kX86Add32RM
  | kX86And32RM | kX86Or32RM | kX86Xor32RM
  | kX86Movsx8RM | kX86Movsx16RM | kX86Movzx8RM | kX86Movzx16RM
  | kX86Lea32RA
  | kX86MovsdRA | kX86MovsdRM | kX86Mov32RA | kX86MovssRA | kX86MovssRM
  | kX86Movzx16RA | kX86Movsx16RA | kX86Movzx8RA | kX86Movsx8RA
  | kX86MovsdAR | kX86MovsdMR | kX86Mov32AR | kX86Mov32MR
  | kX86MovssAR | kX86MovssMR
  | kX86Mov16AR | kX86Mov16MR | kX86Mov8AR | kX86Mov8MR.

#[global] Instance X86OpCode_eq_dec : EqDecision X86OpCode.
Proof. solve_decision. Defined.

(** ** Instruction records and the compilation unit *)

(** Stack-slot annotation left by [AnnotateDalvikRegAccess]. *)
Record DalvikRegAccess := {
  slot_index : Z;
  is_load : bool;
  is_wide : bool;
}.

(** One instruction record.  [operands] holds the operand slots the
    constructor was given, in order. *)
Record LIR := {
  opcode : X86OpCode;
  operands : list Z;
  dalvik_offset : Z;
  is_nop : bool;
  frame_access : option DalvikRegAccess;
}.

(** An entry of the allocator's temporary pool. *)
Record RegisterInfo := {
  reg : Z;
  in_use : bool;
}.

(** The part of [CompilationUnit] this layer reads and writes.  [lirs]
    is the instruction stream in emission order; a [LIR*] into the stream
    is the position of the record. *)
Record CompilationUnit := {
  lirs : list LIR;
  reg_pool : list RegisterInfo;
  current_dalvik_offset : Z;
}.

Definition LIRref := nat.

(** ** Emission monad: state passing with fatal faults *)

Inductive result (A : Type) :=
  | Ok (a : A)
  | Fatal (msg : string).
Arguments Ok {A} a.
Arguments Fatal {A} msg.

Definition M (A : Type) := CompilationUnit -> result (A * CompilationUnit).

Definition ret {A} (a : A) : M A := fun cu => Ok (a, cu).

Definition bind {A B} (c : M A) (k : A -> M B) : M B :=
  fun cu =>
    match c cu with
    | Ok (a, cu') => k a cu'
    | Fatal msg => Fatal msg
    end.

Notation "x <- c ;; k" := (bind c (fun x => k))
  (at level 100, c at next level, right associativity).
Notation "c ;;; k" := (bind c (fun _ => k))
  (at level 100, right associativity).

(** Modelled from the spec: LOG(FATAL), CHECK and DCHECK come from the
    logging header, which is not among the sources.  Section 7 of the
    spec makes every unsupported combination and every violated
    assertion a fatal fault that aborts the emission at once, so a failed
    check yields [Fatal] and nothing after it runs. *)
Definition LOG_FATAL {A} (msg : string) : M A := fun _ => Fatal msg.

Definition CHECK (b : bool) (msg : string) : M unit :=
  if b then ret tt else LOG_FATAL msg.

Definition DCHECK (b : bool) (msg : string) : M unit := CHECK b msg.

Definition DCHECK_EQ (x y : Z) (msg : string) : M unit := DCHECK (x =? y) msg.

(** ** Instruction-stream builder and stack-map annotation *)

Definition mkLIR (off : Z) (opc : X86OpCode) (ops : list Z) : LIR :=
  {| opcode := opc; operands := ops; dalvik_offset := off;
     is_nop := false; frame_access := None |}.

(** Modelled from the spec: [RawLIR], [AppendLIR] and the [NewLIRn]
    constructors live in the instruction-stream builder, outside the
    sources.  Section 6: a new record is stamped with the current
    source-position marker and appended to the unit's stream. *)
Definition RawLIR (opc : X86OpCode) (ops : list Z) : M LIR :=
  fun cu => Ok (mkLIR (current_dalvik_offset cu) opc ops, cu).

Definition AppendLIR (l : LIR) : M LIRref :=
  fun cu =>
    Ok (length (lirs cu),
        {| lirs := lirs cu ++ [l];
           reg_pool := reg_pool cu;
           current_dalvik_offset := current_dalvik_offset cu |}).

Definition NewLIR (opc : X86OpCode) (ops : list Z) : M LIRref :=
  l <- RawLIR opc ops ;; AppendLIR l.

Definition NewLIR1 opc (a : Z) := NewLIR opc [a].
Definition NewLIR2 opc (a b : Z) := NewLIR opc [a; b].
Definition NewLIR3 opc (a b c : Z) := NewLIR opc [a; b; c].
Definition NewLIR5 opc (a b c d e : Z) := NewLIR opc [a; b; c; d; e].

Definition set_frame_access (a : DalvikRegAccess) (l : LIR) : LIR :=
  {| opcode := opcode l; operands := operands l;
     dalvik_offset := dalvik_offset l; is_nop := is_nop l;
     frame_access := Some a |}.

Definition set_is_nop (l : LIR) : LIR :=
  {| opcode := opcode l; operands := operands l;
     dalvik_offset := dalvik_offset l; is_nop := true;
     frame_access := frame_access l |}.

(** Modelled from the spec: [AnnotateDalvikRegAccess] belongs to the
    stack-map tooling.  Section 4.5: the record is annotated in place
    with its slot index, direction and width, nothing else changes. *)
Definition AnnotateDalvikRegAccess (r : LIRref) (slot : Z) (ld wide : bool)
  : M unit :=
  fun cu =>
    Ok (tt,
        {| lirs := alter (set_frame_access
                     {| slot_index := slot; is_load := ld; is_wide := wide |})
                     r (lirs cu);
           reg_pool := reg_pool cu;
           current_dalvik_offset := current_dalvik_offset cu |}).

(** ** Temporary-register service *)

(** Modelled from the spec: the register allocator (ralloc_util) is an
    external collaborator.  Section 6 gives its interface,
    borrow_temporary and release_temporary, over a pool of temporaries
    each of which is either available or on loan. *)
Fixpoint take_temp (p : list RegisterInfo) : option (Z * list RegisterInfo) :=
  match p with
  | [] => None
  | i :: p' =>
      if in_use i then
        match take_temp p' with
        | Some (r, q) => Some (r, i :: q)
        | None => None
        end
      else Some (reg i, {| reg := reg i; in_use := true |} :: p')
  end.

Fixpoint give_temp (r : Z) (p : list RegisterInfo) : list RegisterInfo :=
  match p with
  | [] => []
  | i :: p' =>
      if reg i =? r then {| reg := reg i; in_use := false |} :: p'
      else i :: give_temp r p'
  end.

Definition AllocTemp : M Z :=
  fun cu =>
    match take_temp (reg_pool cu) with
    | Some (r, p) =>
        Ok (r, {| lirs := lirs cu; reg_pool := p;
                  current_dalvik_offset := current_dalvik_offset cu |})
    | None => Fatal "No free temp registers"
    end.

Definition FreeTemp (r : Z) : M unit :=
  fun cu =>
    Ok (tt, {| lirs := lirs cu; reg_pool := give_temp r (reg_pool cu);
               current_dalvik_offset := current_dalvik_offset cu |}).

(** Number of temporaries the allocator can still hand out. *)
Definition available_temps (cu : CompilationUnit) : nat :=
  length (filter (fun i => in_use i = false) (reg_pool cu)).

(** ** Observing what a call emitted *)

(** The stream of [cu] extended by the records [new]. *)
Definition emit (cu : CompilationUnit) (new : list LIR) : CompilationUnit :=
  {| lirs := lirs cu ++ new;
     reg_pool := reg_pool cu;
     current_dalvik_offset := current_dalvik_offset cu |}.

(** Records appended between [cu] and [cu']. *)
Definition emitted (cu cu' : CompilationUnit) : list LIR :=
  drop (length (lirs cu)) (lirs cu').

(** Opcode and operand encoding of a record. *)
Definition shape (l : LIR) : X86OpCode * list Z := (opcode l, operands l).

(** Modelled from the spec: IS_SIMM8 is a macro of the x86 header.
    Section 4.2 and section 8: the 8-bit signed-fits check, true from
    -128 through 127. *)
Definition IS_SIMM8 (v : Z) : bool := (-128 <=? v) && (v <=? 127).

(** ** Target description *)

(** What utility_x86.cc takes from x86_lir.h and the shared codegen
    headers, none of which is among the sources: the register-class
    predicates, the single-to-double aliasing, the fixed registers, the
    sentinel handle, the word offsets of a 64-bit value and the
    binary-shape flag of the opcode descriptor table.  The selection
    code is parametric in all of them. *)
Class X86Target := {
  X86_FPREG : Z -> bool;
  X86_SINGLEREG : Z -> bool;
  X86_DOUBLEREG : Z -> bool;
  S2d : Z -> Z -> Z;
  rCX : Z;
  rBP : Z;
  rX86_SP : Z;
  r4sib_no_index : Z;
  r5sib_no_base : Z;
  INVALID_REG : Z;
  LOWORD_OFFSET : Z;
  HIWORD_OFFSET : Z;
  IS_BINARY_OP : X86OpCode -> bool;
}.

Section Codegen.
Context {T : X86Target}.

(** [X86Codegen::OpFpRegCopy]: builds the record, does not append it. *)
Definition OpFpRegCopy (r_dest r_src : Z) : M LIR :=
  DCHECK (eqb (X86_DOUBLEREG r_dest) (X86_DOUBLEREG r_src))
         "must be both DOUBLE or both not DOUBLE" ;;;
  opc <- (if X86_DOUBLEREG r_dest then ret kX86MovsdRR
          else if X86_SINGLEREG r_dest then
            if X86_SINGLEREG r_src then ret kX86MovssRR
            else ret kX86MovdxrRR
          else
            (DCHECK (X86_SINGLEREG r_src) "X86_SINGLEREG(r_src)" ;;;
             ret kX86MovdrxRR)) ;;
  DCHECK (IS_BINARY_OP opc) "IS_BINARY_OP" ;;;
  res <- RawLIR opc [r_dest; r_src] ;;
  ret (if r_dest =? r_src then set_is_nop res else res).

(** Modelled from the spec: [OpRegCopy] is defined with the integer
    codegen, outside the sources.  Section 6: copy_register applies the
    register-class-aware copy selection (OpFpRegCopy as soon as a
    floating register is involved, the general-purpose move otherwise),
    marks a self-copy as a no-op and the record joins the stream. *)
Definition OpRegCopyNoInsert (r_dest r_src : Z) : M LIR :=
  if X86_FPREG r_dest || X86_FPREG r_src then OpFpRegCopy r_dest r_src
  else
    res <- RawLIR kX86Mov32RR [r_dest; r_src] ;;
    ret (if r_dest =? r_src then set_is_nop res else res).

Definition OpRegCopy (r_dest r_src : Z) : M LIRref :=
  res <- OpRegCopyNoInsert r_dest r_src ;; AppendLIR res.

(** [X86Codegen::InexpensiveConstant] *)
Definition InexpensiveConstant (reg value : Z) : bool := true.

(** [X86Codegen::LoadConstantNoClobber] *)
Definition LoadConstantNoClobber (r_dest value : Z) : M LIRref :=
  let r_dest_save := r_dest in
  let body (r_dest : Z) : M LIRref :=
    res <- (if value =? 0 then NewLIR2 kX86Xor32RR r_dest r_dest
            else NewLIR2 kX86Mov32RI r_dest value) ;;
    (if X86_FPREG r_dest_save then
       NewLIR2 kX86MovdxrRR r_dest_save r_dest ;;;
       FreeTemp r_dest
     else ret tt) ;;;
    ret res in
  if X86_FPREG r_dest then
    if value =? 0 then NewLIR2 kX86XorpsRR r_dest r_dest
    else
      DCHECK (X86_SINGLEREG r_dest) "X86_SINGLEREG(r_dest)" ;;;
      r_dest <- AllocTemp ;;
      body r_dest
  else body r_dest.

(** [X86Codegen::OpReg] *)
Definition OpReg (op : OpKind) (r_dest_src : Z) : M LIRref :=
  opc <- match op with
         | kOpNeg => ret kX86Neg32R
         | kOpNot => ret kX86Not32R
         | kOpBlx => ret kX86CallR
         | _ => LOG_FATAL "Bad case in OpReg"
         end ;;
  NewLIR1 opc r_dest_src.

(** [X86Codegen::OpRegImm] *)
Definition OpRegImm (op : OpKind) (r_dest_src1 value : Z) : M LIRref :=
  let byte_imm := IS_SIMM8 value in
  DCHECK (negb (X86_FPREG r_dest_src1)) "!X86_FPREG(r_dest_src1)" ;;;
  match op with
  | kOpLsl => NewLIR2 kX86Sal32RI r_dest_src1 value
  | kOpLsr => NewLIR2 kX86Shr32RI r_dest_src1 value
  | kOpAsr => NewLIR2 kX86Sar32RI r_dest_src1 value
  | kOpAdd =>
      NewLIR2 (if byte_imm then kX86Add32RI8 else kX86Add32RI) r_dest_src1 value
  | kOpOr =>
      NewLIR2 (if byte_imm then kX86Or32RI8 else kX86Or32RI) r_dest_src1 value
  | kOpAdc =>
      NewLIR2 (if byte_imm then kX86Adc32RI8 else kX86Adc32RI) r_dest_src1 value
  | kOpAnd =>
      NewLIR2 (if byte_imm then kX86And32RI8 else kX86And32RI) r_dest_src1 value
  | kOpSub =>
      NewLIR2 (if byte_imm then kX86Sub32RI8 else kX86Sub32RI) r_dest_src1 value
  | kOpXor =>
      NewLIR2 (if byte_imm then kX86Xor32RI8 else kX86Xor32RI) r_dest_src1 value
  | kOpCmp =>
      NewLIR2 (if byte_imm then kX86Cmp32RI8 else kX86Cmp32RI) r_dest_src1 value
  | kOpMov => LoadConstantNoClobber r_dest_src1 value
  | kOpMul =>
      NewLIR3 (if byte_imm then kX86Imul32RRI8 else kX86Imul32RRI)
              r_dest_src1 r_dest_src1 value
  | _ => LOG_FATAL "Bad case in OpRegImm"
  end.

(** [X86Codegen::OpRegReg] *)
Definition OpRegReg (op : OpKind) (r_dest_src1 r_src2 : Z) : M LIRref :=
  let binary (opc : X86OpCode) (src2_must_be_cx : bool) : M LIRref :=
    CHECK (negb src2_must_be_cx || (r_src2 =? rCX))
          "!src2_must_be_cx || r_src2 == rCX" ;;;
    NewLIR2 opc r_dest_src1 r_src2 in
  match op with
  | kOpMvn => OpRegCopy r_dest_src1 r_src2 ;;; OpReg kOpNot r_dest_src1
  | kOpNeg => OpRegCopy r_dest_src1 r_src2 ;;; OpReg kOpNeg r_dest_src1
  | kOpSub => binary kX86Sub32RR false
  | kOpSbc => binary kX86Sbb32RR false
  | kOpLsl => binary kX86Sal32RC true
  | kOpLsr => binary kX86Shr32RC true
  | kOpAsr => binary kX86Sar32RC true
  | kOpMov => binary kX86Mov32RR false
  | kOpCmp => binary kX86Cmp32RR false
  | kOpAdd => binary kX86Add32RR false
  | kOpAdc => binary kX86Adc32RR false
  | kOpAnd => binary kX86And32RR false
  | kOpOr => binary kX86Or32RR false
  | kOpXor => binary kX86Xor32RR false
  | kOp2Byte =>
      if 4 <=? r_src2 then
        NewLIR2 kX86Mov32RR r_dest_src1 r_src2 ;;;
        NewLIR2 kX86Sal32RI r_dest_src1 24 ;;;
        NewLIR2 kX86Sar32RI r_dest_src1 24
      else binary kX86Movsx8RR false
  | kOp2Short => binary kX86Movsx16RR false
  | kOp2Char => binary kX86Movzx16RR false
  | kOpMul => binary kX86Imul32RR false
  | _ => LOG_FATAL "Bad case in OpRegReg"
  end.

(** [X86Codegen::OpRegMem] *)
Definition OpRegMem (op : OpKind) (r_dest rBase offset : Z) : M LIRref :=
  opc <- match op with
         | kOpSub => ret kX86Sub32RM
         | kOpMov => ret kX86Mov32RM
         | kOpCmp => ret kX86Cmp32RM
         | kOpAdd => ret kX86Add32RM
         | kOpAnd => ret kX86And32RM
         | kOpOr => ret kX86Or32RM
         | kOpXor => ret kX86Xor32RM
         | kOp2Byte => ret kX86Movsx8RM
         | kOp2Short => ret kX86Movsx16RM
         | kOp2Char => ret kX86Movzx16RM
         | _ => LOG_FATAL "Bad case in OpRegMem"
         end ;;
  NewLIR3 opc r_dest rBase offset.

(** [X86Codegen::OpRegRegReg] *)
Definition OpRegRegReg (op : OpKind) (r_dest r_src1 r_src2 : Z) : M LIRref :=
  if negb (r_dest =? r_src1) && negb (r_dest =? r_src2) then
    if bool_decide (op = kOpAdd) then
      if r_src1 =? r_src2 then
        OpRegCopy r_dest r_src1 ;;;
        OpRegImm kOpLsl r_dest 1
      else if negb (r_src1 =? rBP) then
        NewLIR5 kX86Lea32RA r_dest r_src1 r_src2 0 0
      else
        NewLIR5 kX86Lea32RA r_dest r_src2 r_src1 0 0
    else
      OpRegCopy r_dest r_src1 ;;;
      OpRegReg op r_dest r_src2
  else if r_dest =? r_src1 then
    OpRegReg op r_dest r_src2
  else
    match op with
    | kOpSub =>
        OpReg kOpNeg r_dest ;;;
        OpRegReg kOpAdd r_dest r_src1
    | kOpSbc | kOpLsl | kOpLsr | kOpAsr | kOpRor =>
        t_reg <- AllocTemp ;;
        OpRegCopy t_reg r_src1 ;;;
        OpRegReg op t_reg r_src2 ;;;
        res <- OpRegCopy r_dest t_reg ;;
        FreeTemp t_reg ;;;
        ret res
    | kOpAdd | kOpOr | kOpAdc | kOpAnd | kOpXor =>
        OpRegReg op r_dest r_src1
    | _ => LOG_FATAL "Bad case in OpRegRegReg"
    end.

(** [X86Codegen::OpRegRegImm].  The lea shift special case is guarded
    by a constant false in the source and is kept as written. *)
Definition OpRegRegImm (op : OpKind) (r_dest r_src value : Z) : M LIRref :=
  if bool_decide (op = kOpMul) then
    NewLIR3 (if IS_SIMM8 value then kX86Imul32RRI8 else kX86Imul32RRI)
            r_dest r_src value
  else if bool_decide (op = kOpAnd) && (value =? 255) && (r_src <? 4) then
    NewLIR2 kX86Movzx8RR r_dest r_src
  else if bool_decide (op = kOpAnd) && (value =? 65535) then
    NewLIR2 kX86Movzx16RR r_dest r_src
  else if negb (r_dest =? r_src) then
    if false && bool_decide (op = kOpLsl) && (0 <=? value) && (value <=? 3) then
      NewLIR5 kX86Lea32RA r_dest r5sib_no_base r_src value 0
    else if bool_decide (op = kOpAdd) then
      NewLIR5 kX86Lea32RA r_dest r_src r4sib_no_index 0 value
    else
      OpRegCopy r_dest r_src ;;;
      OpRegImm op r_dest value
  else
    OpRegImm op r_dest value.

(** [X86Codegen::OpThreadMem] *)
Definition OpThreadMem (op : OpKind) (thread_offset : Z) : M LIRref :=
  opc <- match op with
         | kOpBlx => ret kX86CallT
         | _ => LOG_FATAL "Bad opcode"
         end ;;
  NewLIR1 opc thread_offset.

(** [X86Codegen::OpMem] *)
Definition OpMem (op : OpKind) (rBase disp : Z) : M LIRref :=
  opc <- match op with
         | kOpBlx => ret kX86CallM
         | _ => LOG_FATAL "Bad opcode"
         end ;;
  NewLIR2 opc rBase disp.

(** [X86Codegen::LoadConstantValueWide] *)
Definition LoadConstantValueWide (r_dest_lo r_dest_hi val_lo val_hi : Z)
  : M LIRref :=
  if X86_FPREG r_dest_lo then
    DCHECK (X86_FPREG r_dest_hi) "X86_FPREG(r_dest_hi)" ;;;
    if (val_lo =? 0) && (val_hi =? 0) then
      NewLIR2 kX86XorpsRR r_dest_lo r_dest_lo
    else
      res <- (if val_lo =? 0 then NewLIR2 kX86XorpsRR r_dest_lo r_dest_lo
              else LoadConstantNoClobber r_dest_lo val_lo) ;;
      (if negb (val_hi =? 0) then
         LoadConstantNoClobber r_dest_hi val_hi ;;;
         NewLIR2 kX86PsllqRI r_dest_hi 32 ;;;
         NewLIR2 kX86OrpsRR r_dest_lo r_dest_hi ;;;
         ret tt
       else ret tt) ;;;
      ret res
  else
    res <- LoadConstantNoClobber r_dest_lo val_lo ;;
    LoadConstantNoClobber r_dest_hi val_hi ;;;
    ret res.

(** Local state of the load/store opcode switch. *)
Record Selection := {
  sel_opcode : X86OpCode;
  sel_reg : Z;
  sel_reg_hi : Z;
  sel_pair : bool;
  sel_is64bit : bool;
}.

(** [X86Codegen::LoadBaseIndexedDisp] *)
Definition LoadBaseIndexedDisp (rBase r_index scale displacement
                                r_dest r_dest_hi : Z) (size : OpSize)
                               (s_reg : Z) : M LIRref :=
  let is_array := negb (r_index =? INVALID_REG) in
  let plain (opc : X86OpCode) : Selection :=
    {| sel_opcode := opc; sel_reg := r_dest; sel_reg_hi := r_dest_hi;
       sel_pair := false; sel_is64bit := false |} in
  s <- match size with
       | kLong | kDouble =>
           s <- (if X86_FPREG r_dest then
                   r_dest <- (if X86_SINGLEREG r_dest then
                                DCHECK (X86_FPREG r_dest_hi)
                                       "X86_FPREG(r_dest_hi)" ;;;
                                DCHECK_EQ r_dest (r_dest_hi - 1)
                                          "r_dest == r_dest_hi - 1" ;;;
                                ret (S2d r_dest r_dest_hi)
                              else ret r_dest) ;;
                   ret {| sel_opcode :=
                            if is_array then kX86MovsdRA else kX86MovsdRM;
                          sel_reg := r_dest; sel_reg_hi := r_dest + 1;
                          sel_pair := false; sel_is64bit := true |}
                 else
                   ret {| sel_opcode :=
                            if is_array then kX86Mov32RA else kX86Mov32RM;
                          sel_reg := r_dest; sel_reg_hi := r_dest_hi;
                          sel_pair := true; sel_is64bit := true |}) ;;
           DCHECK_EQ (Z.land displacement 3) 0 "displacement & 0x3" ;;;
           ret s
       | kWord | kSingle =>
           opc <- (if X86_FPREG r_dest then
                     DCHECK (X86_SINGLEREG r_dest) "X86_SINGLEREG(r_dest)" ;;;
                     ret (if is_array then kX86MovssRA else kX86MovssRM)
                   else ret (if is_array then kX86Mov32RA else kX86Mov32RM)) ;;
           DCHECK_EQ (Z.land displacement 3) 0 "displacement & 0x3" ;;;
           ret (plain opc)
       | kUnsignedHalf =>
           DCHECK_EQ (Z.land displacement 1) 0 "displacement & 0x1" ;;;
           ret (plain (if is_array then kX86Movzx16RA else kX86Movzx16RM))
       | kSignedHalf =>
           DCHECK_EQ (Z.land displacement 1) 0 "displacement & 0x1" ;;;
           ret (plain (if is_array then kX86Movsx16RA else kX86Movsx16RM))
       | kUnsignedByte =>
           ret (plain (if is_array then kX86Movzx8RA else kX86Movzx8RM))
       | kSignedByte =>
           ret (plain (if is_array then kX86Movsx8RA else kX86Movsx8RM))
       end ;;
  let opc := sel_opcode s in
  let r_dest := sel_reg s in
  let r_dest_hi := sel_reg_hi s in
  let pair := sel_pair s in
  let is64bit := sel_is64bit s in
  if negb is_array then
    (* load2 stays NULL when the access is no pair; it is read under
       [pair] only, so the slot repeats [load] here. *)
    loads <- (if negb pair then
                load <- NewLIR3 opc r_dest rBase (displacement + LOWORD_OFFSET) ;;
                ret (load, load)
              else if rBase =? r_dest then
                load2 <- NewLIR3 opc r_dest_hi rBase
                                 (displacement + HIWORD_OFFSET) ;;
                load <- NewLIR3 opc r_dest rBase (displacement + LOWORD_OFFSET) ;;
                ret (load, load2)
              else
                load <- NewLIR3 opc r_dest rBase (displacement + LOWORD_OFFSET) ;;
                load2 <- NewLIR3 opc r_dest_hi rBase
                                 (displacement + HIWORD_OFFSET) ;;
                ret (load, load2)) ;;
    let load := fst loads in
    let load2 := snd loads in
    (if rBase =? rX86_SP then
       AnnotateDalvikRegAccess load
         (Z.shiftr (displacement + (if pair then LOWORD_OFFSET else 0)) 2)
         true is64bit ;;;
       if pair then
         AnnotateDalvikRegAccess load2
           (Z.shiftr (displacement + HIWORD_OFFSET) 2) true is64bit
       else ret tt
     else ret tt) ;;;
    ret load
  else
    if negb pair then
      NewLIR5 opc r_dest rBase r_index scale (displacement + LOWORD_OFFSET)
    else if rBase =? r_dest then
      NewLIR5 opc r_dest_hi rBase r_index scale
              (displacement + HIWORD_OFFSET) ;;;
      NewLIR5 opc r_dest rBase r_index scale (displacement + LOWORD_OFFSET)
    else
      load <- NewLIR5 opc r_dest rBase r_index scale
                      (displacement + LOWORD_OFFSET) ;;
      NewLIR5 opc r_dest_hi rBase r_index scale
              (displacement + HIWORD_OFFSET) ;;;
      ret load.

(** Modelled from the spec: INVALID_SREG is a constant of the shared
    codegen header; the s_reg argument is never read by the load/store
    engine, so any sentinel serves. *)
Definition INVALID_SREG : Z := -1.

(** [X86Codegen::LoadBaseIndexed] *)
Definition LoadBaseIndexed (rBase r_index r_dest scale : Z) (size : OpSize)
  : M LIRref :=
  LoadBaseIndexedDisp rBase r_index scale 0 r_dest INVALID_REG size
                      INVALID_SREG.

(** [X86Codegen::LoadBaseDisp] *)
Definition LoadBaseDisp (rBase displacement r_dest : Z) (size : OpSize)
                        (s_reg : Z) : M LIRref :=
  LoadBaseIndexedDisp rBase INVALID_REG 0 displacement r_dest INVALID_REG
                      size s_reg.

(** [X86Codegen::LoadBaseDispWide] *)
Definition LoadBaseDispWide (rBase displacement r_dest_lo r_dest_hi s_reg : Z)
  : M LIRref :=
  LoadBaseIndexedDisp rBase INVALID_REG 0 displacement r_dest_lo r_dest_hi
                      kLong s_reg.

(** [X86Codegen::StoreBaseIndexedDisp] *)
Definition StoreBaseIndexedDisp (rBase r_index scale displacement
                                 r_src r_src_hi : Z) (size : OpSize)
                                (s_reg : Z) : M LIRref :=
  let is_array := negb (r_index =? INVALID_REG) in
  let plain (opc : X86OpCode) : Selection :=
    {| sel_opcode := opc; sel_reg := r_src; sel_reg_hi := r_src_hi;
       sel_pair := false; sel_is64bit := false |} in
  s <- match size with
       | kLong | kDouble =>
           s <- (if X86_FPREG r_src then
                   r_src <- (if X86_SINGLEREG r_src then
                               DCHECK (X86_FPREG r_src_hi)
                                      "X86_FPREG(r_src_hi)" ;;;
                               DCHECK_EQ r_src (r_src_hi - 1)
                                         "r_src == r_src_hi - 1" ;;;
                               ret (S2d r_src r_src_hi)
                             else ret r_src) ;;
                   ret {| sel_opcode :=
                            if is_array then kX86MovsdAR else kX86MovsdMR;
                          sel_reg := r_src; sel_reg_hi := r_src + 1;
                          sel_pair := false; sel_is64bit := true |}
                 else
                   ret {| sel_opcode :=
                            if is_array then kX86Mov32AR else kX86Mov32MR;
                          sel_reg := r_src; sel_reg_hi := r_src_hi;
                          sel_pair := true; sel_is64bit := true |}) ;;
           DCHECK_EQ (Z.land displacement 3) 0 "displacement & 0x3" ;;;
           ret s
       | kWord | kSingle =>
           opc <- (if X86_FPREG r_src then
                     DCHECK (X86_SINGLEREG r_src) "X86_SINGLEREG(r_src)" ;;;
                     ret (if is_array then kX86MovssAR else kX86MovssMR)
                   else ret (if is_array then kX86Mov32AR else kX86Mov32MR)) ;;
           DCHECK_EQ (Z.land displacement 3) 0 "displacement & 0x3" ;;;
           ret (plain opc)
       | kUnsignedHalf | kSignedHalf =>
           DCHECK_EQ (Z.land displacement 1) 0 "displacement & 0x1" ;;;
           ret (plain (if is_array then kX86Mov16AR else kX86Mov16MR))
       | kUnsignedByte | kSignedByte =>
           ret (plain (if is_array then kX86Mov8AR else kX86Mov8MR))
       end ;;
  let opc := sel_opcode s in
  let r_src := sel_reg s in
  let r_src_hi := sel_reg_hi s in
  let pair := sel_pair s in
  let is64bit := sel_is64bit s in
  if negb is_array then
    (* store2 stays NULL when the access is no pair, as load2 above. *)
    stores <- (if negb pair then
                 store <- NewLIR3 opc rBase (displacement + LOWORD_OFFSET)
                                  r_src ;;
                 ret (store, store)
               else
                 store <- NewLIR3 opc rBase (displacement + LOWORD_OFFSET)
                                  r_src ;;
                 store2 <- NewLIR3 opc rBase (displacement + HIWORD_OFFSET)
                                   r_src_hi ;;
                 ret (store, store2)) ;;
    let store := fst stores in
    let store2 := snd stores in
    (if rBase =? rX86_SP then
       AnnotateDalvikRegAccess store
         (Z.shiftr (displacement + (if pair then LOWORD_OFFSET else 0)) 2)
         false is64bit ;;;
       if pair then
         AnnotateDalvikRegAccess store2
           (Z.shiftr (displacement + HIWORD_OFFSET) 2) false is64bit
       else ret tt
     else ret tt) ;;;
    ret store
  else
    if negb pair then
      NewLIR5 opc rBase r_index scale (displacement + LOWORD_OFFSET) r_src
    else
      store <- NewLIR5 opc rBase r_index scale (displacement + LOWORD_OFFSET)
                       r_src ;;
      NewLIR5 opc rBase r_index scale (displacement + HIWORD_OFFSET)
              r_src_hi ;;;
      ret store.

(** [X86Codegen::StoreBaseIndexed] *)
Definition StoreBaseIndexed (rBase r_index r_src scale : Z) (size : OpSize)
  : M LIRref :=
  StoreBaseIndexedDisp rBase r_index scale 0 r_src INVALID_REG size
                       INVALID_SREG.

(** [X86Codegen::StoreBaseDisp] *)
Definition StoreBaseDisp (rBase displacement r_src : Z) (size : OpSize)
  : M LIRref :=
  StoreBaseIndexedDisp rBase INVALID_REG 0 displacement r_src INVALID_REG
                       size INVALID_SREG.

(** [X86Codegen::StoreBaseDispWide] *)
Definition StoreBaseDispWide (rBase displacement r_src_lo r_src_hi : Z)
  : M LIRref :=
  StoreBaseIndexedDisp rBase INVALID_REG 0 displacement r_src_lo r_src_hi
                       kLong INVALID_SREG.

End Codegen.

(** Modelled from the spec: x86_lir.h is not among the sources.  One
    register layout of the shape section 3 describes, on which the
    functions above can be evaluated: the class sits in reserved bits of
    the handle (bit 5 floating, bit 4 in addition double), general
    registers carry their machine numbers (rAX 0, rCX 1, rDX 2, rBX 3,
    rSP 4, rBP 5), a 64-bit value has its low word at offset 0 and its
    high word at offset 4.  The theorems below hold for every layout;
    this one only supplies concrete inputs. *)
Definition art_x86 : X86Target :=
  {| X86_FPREG := fun x => Z.land x 32 =? 32;
     X86_SINGLEREG := fun x => (Z.land x 32 =? 32) && negb (Z.land x 48 =? 48);
     X86_DOUBLEREG := fun x => Z.land x 48 =? 48;
     S2d := fun x _ => Z.lor x 48;
     rCX := 1;
     rBP := 5;
     rX86_SP := 4;
     r4sib_no_index := 4;
     r5sib_no_base := 5;
     INVALID_REG := 255;
     LOWORD_OFFSET := 0;
     HIWORD_OFFSET := 4;
     IS_BINARY_OP := fun opc =>
       match opc with
       | kX86MovsdRR | kX86MovssRR | kX86MovdxrRR | kX86MovdrxRR
       | kX86Mov32RR | kX86XorpsRR | kX86OrpsRR => true
       | _ => false
       end |}.

(** A compilation unit with an empty stream and two free temporaries
    (rAX and rDX). *)
Definition cu0 : CompilationUnit :=
  {| lirs := [];
     reg_pool := [ {| reg := 0; in_use := false |};
                   {| reg := 2; in_use := false |} ];
     current_dalvik_offset := 0 |}.

(** Shapes of the records a computation appends when started in [cu],
    [None] when it faults. *)
Definition code {A} (c : M A) (cu : CompilationUnit)
  : option (list (X86OpCode * list Z)) :=
  match c cu with
  | Ok (_, cu') => Some (shape <$> emitted cu cu')
  | Fatal _ => None
  end.

(** Tables used to state the selection theorems: the short and the
    full immediate opcode of the operations that have both, the
    count-in-rCX opcode of the shifts, and the opcodes a register copy
    can select. *)
Definition imm8_form (op : OpKind) : option X86OpCode :=
  match op with
  | kOpAdd => Some kX86Add32RI8 | kOpOr => Some kX86Or32RI8
  | kOpAdc => Some kX86Adc32RI8 | kOpAnd => Some kX86And32RI8
  | kOpSub => Some kX86Sub32RI8 | kOpXor => Some kX86Xor32RI8
  | kOpCmp => Some kX86Cmp32RI8
  | _ => None
  end.

Definition imm32_form (op : OpKind) : option X86OpCode :=
  match op with
  | kOpAdd => Some kX86Add32RI | kOpOr => Some kX86Or32RI
  | kOpAdc => Some kX86Adc32RI | kOpAnd => Some kX86And32RI
  | kOpSub => Some kX86Sub32RI | kOpXor => Some kX86Xor32RI
  | kOpCmp => Some kX86Cmp32RI
  | _ => None
  end.

Definition shift_rc_form (op : OpKind) : option X86OpCode :=
  match op with
  | kOpLsl => Some kX86Sal32RC
  | kOpLsr => Some kX86Shr32RC
  | kOpAsr => Some kX86Sar32RC
  | _ => None
  end.

Definition is_copy_opcode (opc : X86OpCode) : bool :=
  match opc with
  | kX86Mov32RR | kX86MovsdRR | kX86MovssRR | kX86MovdxrRR | kX86MovdrxRR =>
      true
  | _ => false
  end.

Definition is_wide_size (size : OpSize) : bool :=
  match size with kLong | kDouble => true | _ => false end.

Definition is_word_size (size : OpSize) : bool :=
  match size with kWord | kSingle => true | _ => false end.

Definition is_half_size (size : OpSize) : bool :=
  match size with kUnsignedHalf | kSignedHalf => true | _ => false end.

(** Shape of one half of a register-pair load: register, then the
    memory operand. *)
Definition load_half `{X86Target} (rBase r_index scale disp r : Z)
  : X86OpCode * list Z :=
  if r_index =? INVALID_REG then (kX86Mov32RM, [r; rBase; disp])
  else (kX86Mov32RA, [r; rBase; r_index; scale; disp]).

(** Shape of one half of a register-pair store: the memory operand,
    then the register. *)
Definition store_half `{X86Target} (rBase r_index scale disp r : Z)
  : X86OpCode * list Z :=
  if r_index =? INVALID_REG then (kX86Mov32MR, [rBase; disp; r])
  else (kX86Mov32AR, [rBase; r_index; scale; disp; r]).

(** ** Vocabulary of the further properties *)

(** Opcode of the operations OpRegReg emits as one record with no
    constraint on the second register. *)
Definition rr_form (op : OpKind) : option X86OpCode :=
  match op with
  | kOpSub => Some kX86Sub32RR | kOpSbc => Some kX86Sbb32RR
  | kOpMov => Some kX86Mov32RR | kOpCmp => Some kX86Cmp32RR
  | kOpAdd => Some kX86Add32RR | kOpAdc => Some kX86Adc32RR
  | kOpAnd => Some kX86And32RR | kOpOr => Some kX86Or32RR
  | kOpXor => Some kX86Xor32RR
  | kOp2Short => Some kX86Movsx16RR | kOp2Char => Some kX86Movzx16RR
  | kOpMul => Some kX86Imul32RR
  | _ => None
  end.

(** The operations OpRegRegReg marks commutative. *)
Definition is_commutative (op : OpKind) : bool :=
  match op with
  | kOpAdd | kOpOr | kOpAdc | kOpAnd | kOpXor => true
  | _ => false
  end.

Definition is_byte_size (size : OpSize) : bool :=
  match size with kUnsignedByte | kSignedByte => true | _ => false end.

(** A returning call that only appended records: the records that were
    in the stream are untouched, and so are the temporary pool and the
    source-position marker. *)
Definition only_emits {A} (c : M A) : Prop :=
  forall cu a cu', c cu = Ok (a, cu') ->
  exists new, new <> [] /\ cu' = emit cu new.

(** A returning call that may have borrowed temporaries: the old stream
    is a prefix of the new one and as many temporaries are available
    as before. *)
Definition restores_temps {A} (c : M A) : Prop :=
  forall cu a cu', c cu = Ok (a, cu') ->
  lirs cu `prefix_of` lirs cu'
  /\ available_temps cu' = available_temps cu
  /\ current_dalvik_offset cu' = current_dalvik_offset cu.

(** Shape of a load record: register, then the memory operand, with
    the plain or the indexed opcode. *)
Definition load_shape `{X86Target} (plain array : X86OpCode)
    (rBase r_index scale disp r : Z) : X86OpCode * list Z :=
  if r_index =? INVALID_REG then (plain, [r; rBase; disp])
  else (array, [r; rBase; r_index; scale; disp]).

(** Shape of a store record: the memory operand, then the register. *)
Definition store_shape `{X86Target} (plain array : X86OpCode)
    (rBase r_index scale disp r : Z) : X86OpCode * list Z :=
  if r_index =? INVALID_REG then (plain, [rBase; disp; r])
  else (array, [rBase; r_index; scale; disp; r]).

(** The annotation of a frame access at displacement [disp]. *)
Definition frame_slot (disp : Z) (ld wide : bool) : DalvikRegAccess :=
  {| slot_index := Z.shiftr disp 2; is_load := ld; is_wide := wide |}.

(** Unfolds the emission monad and the stream builder. *)
Ltac run :=
  unfold NewLIR1, NewLIR2, NewLIR3, NewLIR5, NewLIR, RawLIR, AppendLIR,
    DCHECK_EQ, DCHECK, CHECK, LOG_FATAL, bind, ret, emit; simpl.

(** ** The temporary pool *)

Lemma take_temp_available p r q :
  take_temp p = Some (r, q) ->
  S (length (filter (fun i => in_use i = false) q))
  = length (filter (fun i => in_use i = false) p).
Proof.
  revert r q. induction p as [|i p IH]; intros r q; simpl; [discriminate|].
  destruct (in_use i) eqn:Hi.
  - destruct (take_temp p) as [[r' q']|] eqn:Ht; [|discriminate].
    intros [= <- <-]. rewrite !filter_cons. rewrite Hi.
    destruct (decide (true = false)); [discriminate|]. eauto.
  - intros [= <- <-]. rewrite !filter_cons. simpl. rewrite Hi.
    destruct (decide (true = false)); [discriminate|].
    destruct (decide (false = false)); [|congruence]. reflexivity.
Qed.

(** Releasing the register that was just borrowed makes one more
    temporary available, also when the pool lists a register twice. *)
Lemma give_take_available p r q :
  take_temp p = Some (r, q) ->
  length (filter (fun i => in_use i = false) (give_temp r q))
  = length (filter (fun i => in_use i = false) p).
Proof.
  revert r q. induction p as [|i p IH]; intros r q; simpl; [discriminate|].
  destruct (in_use i) eqn:Hi.
  - destruct (take_temp p) as [[r' q']|] eqn:Ht; [|discriminate].
    intros [= <- <-]. simpl. destruct (reg i =? r') eqn:Hr.
    + rewrite !filter_cons. simpl. rewrite Hi.
      destruct (decide (false = false)); [|congruence].
      destruct (decide (true = false)); [discriminate|].
      simpl. apply (take_temp_available _ _ _ Ht).
    + rewrite !filter_cons. rewrite Hi.
      destruct (decide (true = false)); [discriminate|]. eauto.
  - intros [= <- <-]. simpl. rewrite Z.eqb_refl.
    rewrite !filter_cons. simpl. rewrite Hi. reflexivity.
Qed.

Lemma take_temp_some p :
  (0 < length (filter (fun i => in_use i = false) p))%nat ->
  exists r q, take_temp p = Some (r, q).
Proof.
  induction p as [|i p IH]; simpl; [lia|].
  rewrite filter_cons. destruct (in_use i) eqn:Hi.
  - destruct (decide (true = false)); [discriminate|].
    intros Hp. destruct (IH Hp) as (r & q & ->). eauto.
  - eauto.
Qed.

(** ** What a run appends *)

Lemma emitted_emit cu new : emitted cu (emit cu new) = new.
Proof. unfold emitted, emit; simpl. apply drop_app_length. Qed.

Lemma shape_alter_frame_access a i (l : list LIR) :
  shape <$> alter (set_frame_access a) i l = shape <$> l.
Proof.
  revert i. induction l as [|x l IH]; intros [|i]; simpl; try reflexivity.
  f_equal. apply IH.
Qed.

Lemma land_3_mod d : Z.land d 3 = d mod 4.
Proof. change 3 with (Z.ones 2). rewrite Z.land_ones by lia. reflexivity. Qed.

Lemma land_1_mod d : Z.land d 1 = d mod 2.
Proof. change 1 with (Z.ones 1). rewrite Z.land_ones by lia. reflexivity. Qed.

Section Properties.
Context {T : X86Target}.

(** C9. Materializing the constant 0 appends exactly one record, the
    destination xor-ed with itself: the packed floating xor for a
    floating destination, the 32-bit xor otherwise.  The temporary pool
    is left alone. *)
Theorem LoadConstantNoClobber_zero (r_dest : Z) (cu : CompilationUnit) :
  LoadConstantNoClobber r_dest 0 cu
  = Ok (length (lirs cu),
        emit cu [mkLIR (current_dalvik_offset cu)
                       (if X86_FPREG r_dest then kX86XorpsRR else kX86Xor32RR)
                       [r_dest; r_dest]]).
Proof.
  unfold LoadConstantNoClobber.
  destruct (X86_FPREG r_dest) eqn:Hfp; run; reflexivity.
Qed.

(** C7. Materializing a non-zero constant into a floating destination:
    every call that returns has borrowed the first free temporary [t]
    of the pool, appended the immediate move into [t] and the move from
    [t] into the destination, and given [t] back, so that as many
    temporaries are available after the call as before it.  The call
    does return when the destination is a single register and a
    temporary is available. *)
Theorem LoadConstantNoClobber_fp_releases_temp
    (r_dest value : Z) (cu : CompilationUnit) :
  X86_FPREG r_dest = true -> value <> 0 ->
  (forall res cu',
     LoadConstantNoClobber r_dest value cu = Ok (res, cu') ->
     exists t p,
       take_temp (reg_pool cu) = Some (t, p)
       /\ lirs cu' = lirs cu ++
            [mkLIR (current_dalvik_offset cu) kX86Mov32RI [t; value];
             mkLIR (current_dalvik_offset cu) kX86MovdxrRR [r_dest; t]]
       /\ reg_pool cu' = give_temp t p
       /\ available_temps cu' = available_temps cu)
  /\ (X86_SINGLEREG r_dest = true -> (0 < available_temps cu)%nat ->
      exists res cu', LoadConstantNoClobber r_dest value cu = Ok (res, cu')).
Proof.
  intros Hfp Hv. apply Z.eqb_neq in Hv.
  unfold LoadConstantNoClobber, AllocTemp, FreeTemp, available_temps.
  rewrite Hfp, Hv. split.
  - intros res cu'. run.
    destruct (X86_SINGLEREG r_dest); [|discriminate]. simpl.
    destruct (take_temp (reg_pool cu)) as [[t p]|] eqn:Ht; [|discriminate].
    simpl. intros [= <- <-]. exists t, p. simpl.
    repeat split.
    + rewrite <- app_assoc. reflexivity.
    + apply (give_take_available _ _ _ Ht).
  - intros Hs Hav. run. rewrite Hs. simpl.
    destruct (take_temp_some _ Hav) as (t & p & ->). simpl. eauto.
Qed.

Lemma OpRegImm_imm8_general (op : OpKind) (short full : X86OpCode)
    (r value : Z) (cu : CompilationUnit) :
  imm8_form op = Some short -> imm32_form op = Some full ->
  OpRegImm op r value cu
  = if X86_FPREG r then Fatal "!X86_FPREG(r_dest_src1)"
    else Ok (length (lirs cu),
             emit cu [mkLIR (current_dalvik_offset cu)
                            (if IS_SIMM8 value then short else full)
                            [r; value]]).
Proof.
  intros Hs Hf. unfold OpRegImm. run.
  destruct (X86_FPREG r); [reflexivity|]. simpl.
  destruct op; simpl in Hs, Hf; try discriminate;
    injection Hs as <-; injection Hf as <-;
    destruct (IS_SIMM8 value); reflexivity.
Qed.

(** C4. For add, or, adc, and, sub, xor and compare, an immediate from
    -128 through 127 selects the short-immediate opcode and any other
    immediate the full-immediate opcode; 127 and -128 take the short
    form, 128 and -129 the full form.  The selector emits that one
    record for every register it accepts; a floating register fails its
    entry assertion. *)
Theorem OpRegImm_imm8_selection (op : OpKind) (short full : X86OpCode)
    (r value : Z) (cu : CompilationUnit) :
  imm8_form op = Some short -> imm32_form op = Some full ->
  let sel v opc :=
    OpRegImm op r v cu
    = if X86_FPREG r then Fatal "!X86_FPREG(r_dest_src1)"
      else Ok (length (lirs cu),
               emit cu [mkLIR (current_dalvik_offset cu) opc [r; v]]) in
  (-128 <= value <= 127 -> sel value short)
  /\ (value < -128 \/ 127 < value -> sel value full)
  /\ sel 127 short /\ sel (-128) short
  /\ sel 128 full /\ sel (-129) full.
Proof.
  intros Hs Hf sel. subst sel. simpl.
  pose proof (fun v => OpRegImm_imm8_general op short full r v cu Hs Hf) as G.
  split; [|split; [|split; [|split; [|split]]]]; intros; rewrite G;
    unfold IS_SIMM8; try reflexivity.
  - replace (-128 <=? value) with true by (symmetry; apply Z.leb_le; lia).
    replace (value <=? 127) with true by (symmetry; apply Z.leb_le; lia).
    reflexivity.
  - destruct (Z.leb_spec (-128) value), (Z.leb_spec value 127);
      try reflexivity; lia.
Qed.

(** C10. A register-register shift (kOpLsl, kOpLsr, kOpAsr) whose
    count register is not rCX fails the check and emits nothing; with
    the count in rCX it appends the one shift-by-count record. *)
Theorem OpRegReg_shift_count_in_cx (op : OpKind) (opc : X86OpCode)
    (r_dest_src1 r_src2 : Z) (cu : CompilationUnit) :
  shift_rc_form op = Some opc ->
  (r_src2 <> rCX ->
   OpRegReg op r_dest_src1 r_src2 cu
   = Fatal "!src2_must_be_cx || r_src2 == rCX")
  /\ (r_src2 = rCX ->
      OpRegReg op r_dest_src1 r_src2 cu
      = Ok (length (lirs cu),
            emit cu [mkLIR (current_dalvik_offset cu) opc
                           [r_dest_src1; r_src2]])).
Proof.
  intros Hop. split; intros Hr.
  - apply Z.eqb_neq in Hr.
    destruct op; simpl in Hop; try discriminate;
      unfold OpRegReg; run; rewrite Hr; reflexivity.
  - apply Z.eqb_eq in Hr.
    destruct op; simpl in Hop; try discriminate; injection Hop as <-;
      unfold OpRegReg; run; rewrite Hr; reflexivity.
Qed.

Lemma LoadConstantNoClobber_gp (r value : Z) (cu : CompilationUnit) :
  X86_FPREG r = false ->
  LoadConstantNoClobber r value cu
  = Ok (length (lirs cu),
        emit cu [if value =? 0
                 then mkLIR (current_dalvik_offset cu) kX86Xor32RR [r; r]
                 else mkLIR (current_dalvik_offset cu) kX86Mov32RI
                            [r; value]]).
Proof.
  intros Hfp. unfold LoadConstantNoClobber. rewrite Hfp. run.
  destruct (value =? 0); reflexivity.
Qed.

(** C2 (amended). On a general-purpose register a move immediate is
    handed to the Constant Materializer whatever the width of the value
    (a self-xor for 0, the 32-bit immediate move otherwise); a multiply
    immediate takes the three-operand immediate form, whose short or
    full opcode is chosen by the same 8-bit signed-fits check, both in
    OpRegImm and in OpRegRegImm. *)
Theorem OpRegImm_mov_and_mul (r r_dest r_src value : Z)
    (cu : CompilationUnit) :
  X86_FPREG r = false ->
  OpRegImm kOpMov r value cu = LoadConstantNoClobber r value cu
  /\ LoadConstantNoClobber r value cu
     = Ok (length (lirs cu),
           emit cu [if value =? 0
                    then mkLIR (current_dalvik_offset cu) kX86Xor32RR [r; r]
                    else mkLIR (current_dalvik_offset cu) kX86Mov32RI
                               [r; value]])
  /\ OpRegImm kOpMul r value cu
     = Ok (length (lirs cu),
           emit cu [mkLIR (current_dalvik_offset cu)
                          (if IS_SIMM8 value then kX86Imul32RRI8
                           else kX86Imul32RRI)
                          [r; r; value]])
  /\ OpRegRegImm kOpMul r_dest r_src value cu
     = Ok (length (lirs cu),
           emit cu [mkLIR (current_dalvik_offset cu)
                          (if IS_SIMM8 value then kX86Imul32RRI8
                           else kX86Imul32RRI)
                          [r_dest; r_src; value]]).
Proof.
  intros Hfp. split; [|split; [|split]].
  - unfold OpRegImm. run. rewrite Hfp. reflexivity.
  - apply LoadConstantNoClobber_gp, Hfp.
  - unfold OpRegImm. run. rewrite Hfp. reflexivity.
  - unfold OpRegRegImm. run. reflexivity.
Qed.

(** C5. Add with a destination that aliases neither source.  With
    distinct sources the call appends the single lea record and no copy
    (base and index swap when the first source is rBP).  With equal
    sources every call that returns has appended exactly a register
    copy of the source into the destination followed by the left shift
    of the destination by 1, and on general-purpose registers the call
    returns with the 32-bit move as the copy. *)
Theorem OpRegRegReg_add_no_alias (r_dest r_src1 r_src2 : Z)
    (cu : CompilationUnit) :
  r_dest <> r_src1 -> r_dest <> r_src2 ->
  (r_src1 <> r_src2 ->
   OpRegRegReg kOpAdd r_dest r_src1 r_src2 cu
   = Ok (length (lirs cu),
         emit cu [mkLIR (current_dalvik_offset cu) kX86Lea32RA
                        (if r_src1 =? rBP
                         then [r_dest; r_src2; r_src1; 0; 0]
                         else [r_dest; r_src1; r_src2; 0; 0])]))
  /\ (r_src1 = r_src2 ->
      (forall res cu',
         OpRegRegReg kOpAdd r_dest r_src1 r_src2 cu = Ok (res, cu') ->
         exists cp,
           lirs cu' = lirs cu ++
             [cp; mkLIR (current_dalvik_offset cu) kX86Sal32RI [r_dest; 1]]
           /\ is_copy_opcode (opcode cp) = true
           /\ operands cp = [r_dest; r_src1]
           /\ reg_pool cu' = reg_pool cu)
      /\ (X86_FPREG r_dest = false -> X86_FPREG r_src1 = false ->
          OpRegRegReg kOpAdd r_dest r_src1 r_src2 cu
          = Ok (S (length (lirs cu)),
                emit cu [mkLIR (current_dalvik_offset cu) kX86Mov32RR
                               [r_dest; r_src1];
                         mkLIR (current_dalvik_offset cu) kX86Sal32RI
                               [r_dest; 1]]))).
Proof.
  intros H1 H2. apply Z.eqb_neq in H1, H2.
  unfold OpRegRegReg. rewrite H1, H2. simpl. split.
  - intros H12. apply Z.eqb_neq in H12. rewrite H12.
    destruct (r_src1 =? rBP); run; reflexivity.
  - intros <-. rewrite Z.eqb_refl. split.
    + intros res cu'.
      unfold OpRegCopy, OpRegCopyNoInsert, OpFpRegCopy, OpRegImm.
      rewrite H1.
      destruct (X86_FPREG r_dest) eqn:Hd; simpl.
      { run.
        repeat match goal with
               | |- context [if ?b then _ else _] => destruct b; simpl
               end; discriminate. }
      destruct (X86_FPREG r_src1) eqn:Hs; simpl; run;
        repeat match goal with
               | |- context [if ?b then _ else _] => destruct b; simpl
               end;
        try discriminate;
        intros [= <- <-]; simpl;
        (eexists; split; [rewrite <- app_assoc; reflexivity|];
         repeat split).
    + intros Hd Hs.
      unfold OpRegCopy, OpRegCopyNoInsert, OpRegImm.
      rewrite Hd, Hs, H1. run. rewrite length_app, <- app_assoc. simpl.
      repeat f_equal; lia.
Qed.

(** C6 (amended). Subtract with the destination equal to the second
    source and different from the first: the call appends exactly the
    in-place negate of the destination followed by the add of the first
    source into the destination. *)
Theorem OpRegRegReg_sub_dest_is_src2 (r_dest r_src1 : Z)
    (cu : CompilationUnit) :
  r_dest <> r_src1 ->
  OpRegRegReg kOpSub r_dest r_src1 r_dest cu
  = Ok (S (length (lirs cu)),
        emit cu [mkLIR (current_dalvik_offset cu) kX86Neg32R [r_dest];
                 mkLIR (current_dalvik_offset cu) kX86Add32RR
                       [r_dest; r_src1]]).
Proof.
  intros H1. apply Z.eqb_neq in H1.
  unfold OpRegRegReg, OpReg, OpRegReg. rewrite H1, Z.eqb_refl. run.
  rewrite length_app, <- app_assoc. simpl. repeat f_equal; lia.
Qed.

Lemma bind_ret_id {A} (c : M A) (cu : CompilationUnit) :
  (res <- c ;; ret tt ;;; ret res) cu = c cu.
Proof. unfold bind, ret. destruct (c cu) as [[a cu']|msg]; reflexivity. Qed.

(** C3 (amended). A 64-bit constant with a non-zero low half and a
    zero high half.  Into a floating destination the call is exactly
    the materialization of the low half: nothing is emitted for the
    high half.  Into a general-purpose pair the low half is moved in
    and the high register is then cleared by one self-xor. *)
Theorem LoadConstantValueWide_zero_high (r_dest_lo r_dest_hi val_lo : Z)
    (cu : CompilationUnit) :
  val_lo <> 0 ->
  (X86_FPREG r_dest_lo = true -> X86_FPREG r_dest_hi = true ->
   LoadConstantValueWide r_dest_lo r_dest_hi val_lo 0 cu
   = LoadConstantNoClobber r_dest_lo val_lo cu)
  /\ (X86_FPREG r_dest_lo = false ->
      LoadConstantValueWide r_dest_lo r_dest_hi val_lo 0 cu
      = Ok (length (lirs cu),
            emit cu [mkLIR (current_dalvik_offset cu) kX86Mov32RI
                           [r_dest_lo; val_lo];
                     mkLIR (current_dalvik_offset cu)
                           (if X86_FPREG r_dest_hi then kX86XorpsRR
                            else kX86Xor32RR)
                           [r_dest_hi; r_dest_hi]])).
Proof.
  intros Hv. apply Z.eqb_neq in Hv. unfold LoadConstantValueWide. split.
  - intros Hlo Hhi. rewrite Hlo, Hv. simpl.
    unfold DCHECK, CHECK. rewrite Hhi.
    change ((ret tt ;;;
             res <- LoadConstantNoClobber r_dest_lo val_lo ;;
             ret tt ;;; ret res) cu)
      with ((res <- LoadConstantNoClobber r_dest_lo val_lo ;;
             ret tt ;;; ret res) cu).
    apply bind_ret_id.
  - intros Hlo. rewrite Hlo. unfold bind at 1.
    rewrite (LoadConstantNoClobber_gp _ _ _ Hlo), Hv.
    unfold bind, LoadConstantNoClobber.
    destruct (X86_FPREG r_dest_hi); run; rewrite <- app_assoc; reflexivity.
Qed.

(** C8. A word- or single-width load or store, plain or indexed, at a
    displacement that is no multiple of 4 faults and emits nothing; so
    does a half-width load or store at an odd displacement. *)
Theorem misaligned_access_faults
    (rBase r_index scale displacement r r_hi : Z) (size : OpSize)
    (s_reg : Z) (cu : CompilationUnit) :
  (is_word_size size = true -> displacement mod 4 <> 0 ->
   (exists msg,
      LoadBaseIndexedDisp rBase r_index scale displacement r r_hi size s_reg
                          cu = Fatal msg)
   /\ (exists msg,
         StoreBaseIndexedDisp rBase r_index scale displacement r r_hi size
                              s_reg cu = Fatal msg))
  /\ (is_half_size size = true -> displacement mod 2 <> 0 ->
      (exists msg,
         LoadBaseIndexedDisp rBase r_index scale displacement r r_hi size
                             s_reg cu = Fatal msg)
      /\ (exists msg,
            StoreBaseIndexedDisp rBase r_index scale displacement r r_hi size
                                 s_reg cu = Fatal msg)).
Proof.
  split; intros Hsz Hd.
  - assert (Hl : (Z.land displacement 3 =? 0) = false)
      by (apply Z.eqb_neq; rewrite land_3_mod; exact Hd).
    unfold LoadBaseIndexedDisp, StoreBaseIndexedDisp.
    destruct size; try discriminate;
      (destruct (X86_FPREG r); [destruct (X86_SINGLEREG r)|]);
      unfold DCHECK_EQ, DCHECK, CHECK, LOG_FATAL, bind, ret; cbn [negb];
      rewrite ?Hl; split; eexists; reflexivity.
  - assert (Hl : (Z.land displacement 1 =? 0) = false)
      by (apply Z.eqb_neq; rewrite land_1_mod; exact Hd).
    unfold LoadBaseIndexedDisp, StoreBaseIndexedDisp.
    destruct size; try discriminate;
      unfold DCHECK_EQ, DCHECK, CHECK, LOG_FATAL, bind, ret;
      rewrite ?Hl; split; eexists; reflexivity.
Qed.

Lemma code_alter2 (l : list LIR) (a b : LIR) fa fb i j :
  shape <$> drop (length l)
    (alter (set_frame_access fb) j
       (alter (set_frame_access fa) i ((l ++ [a]) ++ [b])))
  = [shape a; shape b].
Proof.
  rewrite fmap_drop, !shape_alter_frame_access, <- fmap_drop.
  rewrite <- app_assoc, drop_app_length. reflexivity.
Qed.

Lemma code_app2 (l : list LIR) (a b : LIR) :
  shape <$> drop (length l) ((l ++ [a]) ++ [b]) = [shape a; shape b].
Proof. rewrite <- app_assoc, drop_app_length. reflexivity. Qed.

(** C1 (amended). A 64-bit access through a general-purpose register
    pair at an aligned displacement, plain or indexed, appends one
    record per half.  A load whose base register is the low destination
    register transfers the high half first and then the low half; any
    other load transfers the low half first.  A store transfers the low
    half first and then the high half, whatever the base register. *)
Theorem wide_pair_ordering
    (rBase r_index scale displacement r_lo r_hi : Z) (size : OpSize)
    (s_reg : Z) (cu : CompilationUnit) :
  is_wide_size size = true -> X86_FPREG r_lo = false ->
  Z.land displacement 3 = 0 ->
  code (LoadBaseIndexedDisp rBase r_index scale displacement r_lo r_hi size
                            s_reg) cu
  = Some (if rBase =? r_lo
          then [load_half rBase r_index scale
                          (displacement + HIWORD_OFFSET) r_hi;
                load_half rBase r_index scale
                          (displacement + LOWORD_OFFSET) r_lo]
          else [load_half rBase r_index scale
                          (displacement + LOWORD_OFFSET) r_lo;
                load_half rBase r_index scale
                          (displacement + HIWORD_OFFSET) r_hi])
  /\ code (StoreBaseIndexedDisp rBase r_index scale displacement r_lo r_hi
                                size s_reg) cu
     = Some [store_half rBase r_index scale
                        (displacement + LOWORD_OFFSET) r_lo;
             store_half rBase r_index scale
                        (displacement + HIWORD_OFFSET) r_hi].
Proof.
  intros Hsz Hfp Hal.
  unfold code, emitted, LoadBaseIndexedDisp, StoreBaseIndexedDisp,
    load_half, store_half, AnnotateDalvikRegAccess.
  rewrite Hfp, Hal.
  destruct size; try discriminate; run;
    destruct (r_index =? INVALID_REG); simpl;
    destruct (rBase =? r_lo); simpl;
    destruct (rBase =? rX86_SP); simpl;
    rewrite ?code_alter2, ?code_app2; split; reflexivity.
Qed.

End Properties.

(** ** Evaluations on the concrete layout *)

Lemma wide_pair_ordering_witness :
  is_wide_size kLong = true
  /\ @X86_FPREG art_x86 0 = false
  /\ Z.land 8 3 = 0
  /\ code (LoadBaseIndexedDisp (T:=art_x86) 0 255 0 8 0 2 kLong 0) cu0
     = Some [(kX86Mov32RM, [2; 0; 12]); (kX86Mov32RM, [0; 0; 8])]
  /\ code (StoreBaseIndexedDisp (T:=art_x86) 0 255 0 8 0 2 kLong 0) cu0
     = Some [(kX86Mov32MR, [0; 8; 0]); (kX86Mov32MR, [0; 12; 2])].
Proof.
  split; [reflexivity|]. split; [reflexivity|]. split; [reflexivity|].
  exact (wide_pair_ordering (T:=art_x86) 0 255 0 8 0 2 kLong 0 cu0
           eq_refl eq_refl eq_refl).
Defined.

(** C1, as stated, fails on stores: with the base register equal to
    the low source register the low half is stored first. *)
Lemma StoreBaseIndexedDisp_base_is_low_stores_low_first :
  code (StoreBaseIndexedDisp (T:=art_x86) 0 255 0 8 0 2 kLong 0) cu0
  = Some [(kX86Mov32MR, [0; 8; 0]); (kX86Mov32MR, [0; 12; 2])]
  /\ code (StoreBaseIndexedDisp (T:=art_x86) 0 255 0 8 0 2 kLong 0) cu0
     <> Some [(kX86Mov32MR, [0; 12; 2]); (kX86Mov32MR, [0; 8; 0])]
  /\ code (StoreBaseIndexedDisp (T:=art_x86) 0 3 2 8 0 2 kLong 0) cu0
     = Some [(kX86Mov32AR, [0; 3; 2; 8; 0]); (kX86Mov32AR, [0; 3; 2; 12; 2])].
Proof. split; [reflexivity|]. split; [discriminate|reflexivity]. Qed.

Lemma OpRegImm_mov_and_mul_witness :
  @X86_FPREG art_x86 3 = false
  /\ OpRegImm (T:=art_x86) kOpMov 3 1000 cu0
     = LoadConstantNoClobber (T:=art_x86) 3 1000 cu0
  /\ OpRegImm (T:=art_x86) kOpMul 3 5 cu0
     = Ok (0%nat, emit cu0 [mkLIR 0 kX86Imul32RRI8 [3; 3; 5]]).
Proof.
  split; [reflexivity|].
  destruct (OpRegImm_mov_and_mul (T:=art_x86) 3 0 3 5 cu0 eq_refl)
    as (_ & _ & Hmul & _).
  destruct (OpRegImm_mov_and_mul (T:=art_x86) 3 0 3 1000 cu0 eq_refl)
    as (Hmov & _).
  split; [exact Hmov|exact Hmul].
Defined.

(** C2, as stated, fails on multiply: the opcode of a multiply
    immediate depends on whether the value fits 8 bits signed. *)
Lemma OpRegImm_mul_applies_imm8_check :
  code (OpRegImm (T:=art_x86) kOpMul 3 5) cu0
  = Some [(kX86Imul32RRI8, [3; 3; 5])]
  /\ code (OpRegImm (T:=art_x86) kOpMul 3 1000) cu0
     = Some [(kX86Imul32RRI, [3; 3; 1000])]
  /\ ~ (exists opc, forall value,
          code (OpRegImm (T:=art_x86) kOpMul 3 value) cu0
          = Some [(opc, [3; 3; value])]).
Proof.
  split; [reflexivity|]. split; [reflexivity|].
  intros [opc H]. pose proof (H 5) as H5. pose proof (H 1000) as H1000.
  vm_compute in H5, H1000. congruence.
Qed.

Lemma LoadConstantValueWide_zero_high_witness :
  5 <> 0
  /\ @X86_FPREG art_x86 32 = true
  /\ @X86_FPREG art_x86 33 = true
  /\ LoadConstantValueWide (T:=art_x86) 32 33 5 0 cu0
     = LoadConstantNoClobber (T:=art_x86) 32 5 cu0.
Proof.
  split; [lia|]. split; [reflexivity|]. split; [reflexivity|].
  exact (proj1 (LoadConstantValueWide_zero_high (T:=art_x86) 32 33 5 cu0
                  ltac:(lia)) eq_refl eq_refl).
Defined.

(** C3, as stated, fails on a general-purpose pair: the zero high half
    is materialized as well, by a self-xor of the high register. *)
Lemma LoadConstantValueWide_gp_clears_high :
  code (LoadConstantValueWide (T:=art_x86) 0 2 5 0) cu0
  = Some [(kX86Mov32RI, [0; 5]); (kX86Xor32RR, [2; 2])]
  /\ code (LoadConstantValueWide (T:=art_x86) 0 2 5 0) cu0
     <> code (LoadConstantNoClobber (T:=art_x86) 0 5) cu0.
Proof. split; [reflexivity|]. vm_compute. discriminate. Qed.

Lemma OpRegImm_imm8_selection_witness :
  imm8_form kOpAdd = Some kX86Add32RI8
  /\ imm32_form kOpAdd = Some kX86Add32RI
  /\ -128 <= 127 <= 127
  /\ OpRegImm (T:=art_x86) kOpAdd 3 127 cu0
     = Ok (0%nat, emit cu0 [mkLIR 0 kX86Add32RI8 [3; 127]]).
Proof.
  split; [reflexivity|]. split; [reflexivity|]. split; [lia|].
  exact (proj1 (OpRegImm_imm8_selection (T:=art_x86) kOpAdd kX86Add32RI8
                  kX86Add32RI 3 127 cu0 eq_refl eq_refl) ltac:(lia)).
Defined.

Lemma OpRegRegReg_add_no_alias_witness :
  0 <> 3 /\ 0 <> 1 /\ 3 <> 1
  /\ OpRegRegReg (T:=art_x86) kOpAdd 0 3 1 cu0
     = Ok (0%nat, emit cu0 [mkLIR 0 kX86Lea32RA [0; 3; 1; 0; 0]])
  /\ OpRegRegReg (T:=art_x86) kOpAdd 0 3 3 cu0
     = Ok (1%nat, emit cu0 [mkLIR 0 kX86Mov32RR [0; 3];
                            mkLIR 0 kX86Sal32RI [0; 1]]).
Proof.
  split; [lia|]. split; [lia|]. split; [lia|]. split.
  - exact (proj1 (OpRegRegReg_add_no_alias (T:=art_x86) 0 3 1 cu0
                    ltac:(lia) ltac:(lia)) ltac:(lia)).
  - exact (proj2 (proj2 (OpRegRegReg_add_no_alias (T:=art_x86) 0 3 3 cu0
                           ltac:(lia) ltac:(lia)) eq_refl)
             eq_refl eq_refl).
Defined.

Lemma OpRegRegReg_sub_dest_is_src2_witness :
  0 <> 3
  /\ OpRegRegReg (T:=art_x86) kOpSub 0 3 0 cu0
     = Ok (1%nat, emit cu0 [mkLIR 0 kX86Neg32R [0];
                            mkLIR 0 kX86Add32RR [0; 3]]).
Proof.
  split; [lia|].
  exact (OpRegRegReg_sub_dest_is_src2 (T:=art_x86) 0 3 cu0 ltac:(lia)).
Defined.

(** C6, as stated, fails when the destination is also the first
    source: the subtract is then emitted directly. *)
Lemma OpRegRegReg_sub_all_aliased :
  code (OpRegRegReg (T:=art_x86) kOpSub 0 0 0) cu0
  = Some [(kX86Sub32RR, [0; 0])]
  /\ code (OpRegRegReg (T:=art_x86) kOpSub 0 0 0) cu0
     <> Some [(kX86Neg32R, [0]); (kX86Add32RR, [0; 0])].
Proof. split; [reflexivity|discriminate]. Qed.

Lemma LoadConstantNoClobber_fp_releases_temp_witness :
  @X86_FPREG art_x86 32 = true
  /\ 7 <> 0
  /\ exists res cu',
       LoadConstantNoClobber (T:=art_x86) 32 7 cu0 = Ok (res, cu')
       /\ available_temps cu' = available_temps cu0.
Proof.
  split; [reflexivity|]. split; [lia|].
  destruct (LoadConstantNoClobber_fp_releases_temp (T:=art_x86) 32 7 cu0
              eq_refl ltac:(lia)) as [Hret Hruns].
  destruct (Hruns eq_refl ltac:(vm_compute; lia)) as (res & cu' & Hrun).
  exists res, cu'. split; [exact Hrun|].
  destruct (Hret res cu' Hrun) as (t & p & _ & _ & _ & Hav). exact Hav.
Defined.

Lemma misaligned_access_faults_witness :
  is_word_size kWord = true
  /\ 2 mod 4 <> 0
  /\ (exists msg,
        LoadBaseIndexedDisp (T:=art_x86) 0 255 0 2 1 255 kWord 0 cu0
        = Fatal msg)
  /\ (exists msg,
        StoreBaseIndexedDisp (T:=art_x86) 0 255 0 2 1 255 kWord 0 cu0
        = Fatal msg).
Proof.
  split; [reflexivity|]. split; [discriminate|].
  exact (proj1 (misaligned_access_faults (T:=art_x86) 0 255 0 2 1 255 kWord 0
                  cu0) eq_refl ltac:(discriminate)).
Defined.

Lemma OpRegReg_shift_count_in_cx_witness :
  shift_rc_form kOpLsl = Some kX86Sal32RC
  /\ 2 <> @rCX art_x86
  /\ OpRegReg (T:=art_x86) kOpLsl 0 2 cu0
     = Fatal "!src2_must_be_cx || r_src2 == rCX"
  /\ OpRegReg (T:=art_x86) kOpLsl 0 1 cu0
     = Ok (0%nat, emit cu0 [mkLIR 0 kX86Sal32RC [0; 1]]).
Proof.
  split; [reflexivity|]. split; [discriminate|]. split.
  - exact (proj1 (OpRegReg_shift_count_in_cx (T:=art_x86) kOpLsl kX86Sal32RC
                    0 2 cu0 eq_refl) ltac:(discriminate)).
  - exact (proj2 (OpRegReg_shift_count_in_cx (T:=art_x86) kOpLsl kX86Sal32RC
                    0 1 cu0 eq_refl) eq_refl).
Defined.

(** Aligned accesses are emitted: the fault of C8 is the alignment
    assertion, not a dead path. *)
Example aligned_word_access_emitted :
  code (LoadBaseIndexedDisp (T:=art_x86) 0 255 0 4 1 255 kWord 0) cu0
  = Some [(kX86Mov32RM, [1; 0; 4])]
  /\ code (StoreBaseIndexedDisp (T:=art_x86) 0 255 0 6 1 255 kSignedHalf 0) cu0
     = Some [(kX86Mov16MR, [0; 6; 1])].
Proof. split; reflexivity. Qed.

(** ** Further properties of the selectors and synthesizers *)

(** Unfolds the emission monad in a hypothesis and splits on every
    condition the run went through. *)
Ltac run_in H :=
  unfold NewLIR1, NewLIR2, NewLIR3, NewLIR5, NewLIR, RawLIR, AppendLIR,
    AllocTemp, FreeTemp, AnnotateDalvikRegAccess,
    DCHECK_EQ, DCHECK, CHECK, LOG_FATAL, bind, ret in H; simpl in H.

Ltac split_run H :=
  repeat (match type of H with
          | context [if ?b then _ else _] => destruct b eqn:?
          | context [match take_temp ?p with _ => _ end] =>
              destruct (take_temp p) as [[? ?]|] eqn:?
          end; simpl in H);
  try discriminate H.

Ltac done_emit H :=
  injection H as <- <-;
  eexists;
  (split; [|unfold emit; simpl; rewrite <- ?app_assoc; simpl; reflexivity]);
  discriminate.

Ltac done_restore H :=
  injection H as <- <-; unfold available_temps; simpl;
  (split; [|split]);
  [ repeat apply prefix_app_r; reflexivity
  | first [ reflexivity
          | eapply give_take_available; eassumption ]
  | reflexivity ].

Lemma emit_nil cu : emit cu [] = cu.
Proof. destruct cu. unfold emit; simpl. rewrite app_nil_r. reflexivity. Qed.

Lemma emit_emit cu a b : emit (emit cu a) b = emit cu (a ++ b).
Proof. unfold emit; simpl. rewrite app_assoc. reflexivity. Qed.

Lemma NewLIR_run opc ops cu :
  NewLIR opc ops cu
  = Ok (length (lirs cu), emit cu [mkLIR (current_dalvik_offset cu) opc ops]).
Proof. reflexivity. Qed.

Lemma only_emits_bind {A B} (c : M A) (k : A -> M B) :
  only_emits c -> (forall a, only_emits (k a)) -> only_emits (bind c k).
Proof.
  intros Hc Hk cu b cu'. unfold bind.
  destruct (c cu) as [[a cu1]|msg] eqn:E; [|discriminate].
  intros Hkb. destruct (Hc _ _ _ E) as (n1 & Hn1 & ->).
  destruct (Hk a _ _ _ Hkb) as (n2 & Hn2 & ->).
  exists (n1 ++ n2). split.
  - destruct n1; [congruence|discriminate].
  - apply emit_emit.
Qed.

Lemma only_emits_NewLIR opc ops : only_emits (NewLIR opc ops).
Proof.
  intros cu a cu'. rewrite NewLIR_run. intros [= <- <-].
  eexists. split; [|reflexivity]. discriminate.
Qed.

Lemma only_emits_check {A} b msg (k : M A) :
  only_emits k -> only_emits (CHECK b msg ;;; k).
Proof.
  intros Hk cu a cu'. unfold CHECK, LOG_FATAL, bind, ret.
  destruct b; [|discriminate]. apply Hk.
Qed.

Lemma only_emits_restores {A} (c : M A) : only_emits c -> restores_temps c.
Proof.
  intros Hc cu a cu' E. destruct (Hc _ _ _ E) as (new & _ & ->).
  unfold emit, available_temps; simpl. split; [|split]; try reflexivity.
  apply prefix_app_r. reflexivity.
Qed.

Lemma restores_bind {A B} (c : M A) (k : A -> M B) :
  restores_temps c -> (forall a, restores_temps (k a)) ->
  restores_temps (bind c k).
Proof.
  intros Hc Hk cu b cu'. unfold bind.
  destruct (c cu) as [[a cu1]|msg] eqn:E; [|discriminate].
  intros Hkb. destruct (Hc _ _ _ E) as (P1 & A1 & O1).
  destruct (Hk a _ _ _ Hkb) as (P2 & A2 & O2).
  split; [|split]; [etransitivity; eassumption|congruence|congruence].
Qed.

Lemma restores_ret {A} (a : A) : restores_temps (ret a).
Proof. intros cu b cu' [= <- <-]. repeat split; reflexivity. Qed.

Lemma restores_check {A} b msg (k : M A) :
  restores_temps k -> restores_temps (CHECK b msg ;;; k).
Proof.
  intros Hk cu a cu'. unfold CHECK, LOG_FATAL, bind, ret.
  destruct b; [|discriminate]. apply Hk.
Qed.

(** A temporary borrowed around three emitting steps and released. *)
Lemma restores_borrow {A B C} (c1 : Z -> M A) (c2 : Z -> M B)
    (c3 : Z -> M C) :
  (forall t, only_emits (c1 t)) -> (forall t, only_emits (c2 t)) ->
  (forall t, only_emits (c3 t)) ->
  restores_temps
    (t <- AllocTemp ;; c1 t ;;; c2 t ;;; res <- c3 t ;; FreeTemp t ;;; ret res).
Proof.
  intros H1 H2 H3 cu a cu'. unfold bind at 1. unfold AllocTemp.
  destruct (take_temp (reg_pool cu)) as [[t p]|] eqn:Ht; [|discriminate].
  unfold bind.
  destruct (c1 t _) as [[a1 cu1]|] eqn:E1; [|discriminate].
  destruct (c2 t _) as [[a2 cu2]|] eqn:E2; [|discriminate].
  destruct (c3 t _) as [[a3 cu3]|] eqn:E3; [|discriminate].
  destruct (H1 _ _ _ _ E1) as (n1 & _ & ->).
  destruct (H2 _ _ _ _ E2) as (n2 & _ & ->).
  destruct (H3 _ _ _ _ E3) as (n3 & _ & ->).
  unfold FreeTemp, ret. intros [= <- <-].
  unfold available_temps; simpl. split; [|split]; [| |reflexivity].
  - repeat apply prefix_app_r. reflexivity.
  - apply (give_take_available _ _ _ Ht).
Qed.

Lemma alter_at_end0 {A} (f : A -> A) (l : list A) x r :
  alter f (length l) (l ++ x :: r) = l ++ f x :: r.
Proof. induction l as [|y l IH]; simpl; [reflexivity|]. f_equal. exact IH. Qed.

Lemma alter_at_end1 {A} (f : A -> A) (l : list A) a x r :
  alter f (length l + 1)%nat (l ++ a :: x :: r) = l ++ a :: f x :: r.
Proof. induction l as [|y l IH]; simpl; [reflexivity|]. f_equal. exact IH. Qed.

Lemma alter_at_end1S {A} (f : A -> A) (l : list A) a x r :
  alter f (S (length l)) (l ++ a :: x :: r) = l ++ a :: f x :: r.
Proof. induction l as [|y l IH]; simpl; [reflexivity|]. f_equal. exact IH. Qed.

Lemma lookup_at_end0 {A} (l : list A) x r : (l ++ x :: r) !! length l = Some x.
Proof. induction l as [|y l IH]; simpl; [reflexivity|exact IH]. Qed.

Lemma lookup_at_end1 {A} (l : list A) a x r :
  (l ++ a :: x :: r) !! S (length l) = Some x.
Proof. induction l as [|y l IH]; simpl; [reflexivity|exact IH]. Qed.

(** Brings the stream of a finished load or store to the form
    [old ++ new], annotations applied. *)
Ltac norm_stream :=
  rewrite <- ?app_assoc; simpl; rewrite ?length_app; simpl;
  repeat (rewrite alter_at_end0 || rewrite alter_at_end1
          || rewrite alter_at_end1S); simpl.

(** Rewrites the goal with the conditions the run went through. *)
Ltac use_conditions :=
  repeat match goal with
         | E : negb ?b = true |- _ => apply negb_true_iff in E
         | E : negb ?b = false |- _ => apply negb_false_iff in E
         end;
  repeat match goal with
         | E : ?b = _ |- context [?b] => rewrite E
         end.

Section MoreProperties.
Context {T : X86Target}.

Lemma only_emits_OpRegCopy r_dest r_src : only_emits (OpRegCopy r_dest r_src).
Proof.
  intros cu a cu' H.
  unfold OpRegCopy, OpRegCopyNoInsert, OpFpRegCopy in H. run_in H.
  split_run H; done_emit H.
Qed.

Lemma only_emits_OpReg op r : only_emits (OpReg op r).
Proof.
  intros cu a cu' H. unfold OpReg in H.
  destruct op; run_in H; try discriminate H; done_emit H.
Qed.

Lemma only_emits_OpRegImm op r value : only_emits (OpRegImm op r value).
Proof.
  intros cu a cu' H. unfold OpRegImm, LoadConstantNoClobber in H.
  run_in H. destruct (X86_FPREG r) eqn:Hfp; simpl in H; [discriminate|].
  destruct op; try discriminate H; try rewrite Hfp in H; split_run H;
    done_emit H.
Qed.

Lemma only_emits_OpRegReg op r_dest_src1 r_src2 :
  only_emits (OpRegReg op r_dest_src1 r_src2).
Proof.
  intros cu a cu' H.
  unfold OpRegReg, OpReg, OpRegCopy, OpRegCopyNoInsert, OpFpRegCopy in H.
  destruct op; run_in H; split_run H; done_emit H.
Qed.

Lemma only_emits_OpRegMem op r_dest rBase offset :
  only_emits (OpRegMem op r_dest rBase offset).
Proof.
  intros cu a cu' H. unfold OpRegMem in H.
  destruct op; run_in H; try discriminate H; done_emit H.
Qed.

Lemma only_emits_OpRegRegImm op r_dest r_src value :
  only_emits (OpRegRegImm op r_dest r_src value).
Proof.
  unfold OpRegRegImm.
  repeat match goal with
         | |- only_emits (if ?b then _ else _) => destruct b
         end;
    try apply only_emits_NewLIR;
    try apply only_emits_OpRegImm.
  apply only_emits_bind; [apply only_emits_OpRegCopy|].
  intros _. apply only_emits_OpRegImm.
Qed.

Lemma restores_LoadConstantNoClobber r_dest value :
  restores_temps (LoadConstantNoClobber r_dest value).
Proof.
  intros cu a cu' H. unfold LoadConstantNoClobber in H.
  destruct (X86_FPREG r_dest) eqn:Hfp; run_in H; try rewrite Hfp in H;
    split_run H; done_restore H.
Qed.

Lemma restores_LoadConstantValueWide r_dest_lo r_dest_hi val_lo val_hi :
  restores_temps (LoadConstantValueWide r_dest_lo r_dest_hi val_lo val_hi).
Proof.
  unfold LoadConstantValueWide, DCHECK.
  repeat first
    [ apply restores_LoadConstantNoClobber
    | apply restores_ret
    | apply restores_check
    | apply only_emits_restores, only_emits_NewLIR
    | apply restores_bind; [|intros ?]
    | match goal with
      | |- restores_temps (if ?b then _ else _) => destruct b
      end ].
Qed.

(** X1. Every returning call of the one-shape selectors has only appended
    records, at least one: the records already in the stream, the pool
    of temporaries and the source position are as before. *)
Theorem selectors_only_emit (op : OpKind) (r1 r2 v : Z) :
  only_emits (OpReg op r1)
  /\ only_emits (OpRegImm op r1 v)
  /\ only_emits (OpRegReg op r1 r2)
  /\ only_emits (OpRegMem op r1 r2 v)
  /\ only_emits (OpRegRegImm op r1 r2 v).
Proof.
  split; [apply only_emits_OpReg|].
  split; [apply only_emits_OpRegImm|].
  split; [apply only_emits_OpRegReg|].
  split; [apply only_emits_OpRegMem|apply only_emits_OpRegRegImm].
Qed.

(** X2. Every returning call of the three-operand synthesizer, for every
    operation and aliasing, leaves the old stream as a prefix of the new
    one and as many temporaries available as before: the temporary of
    the shift and subtract-with-borrow path is always released. *)
Theorem OpRegRegReg_restores_temps (op : OpKind) (r_dest r_src1 r_src2 : Z) :
  restores_temps (OpRegRegReg op r_dest r_src1 r_src2).
Proof.
  unfold OpRegRegReg.
  repeat match goal with
         | |- restores_temps (if ?b then _ else _) => destruct b
         end;
    try (apply only_emits_restores;
         first [ apply only_emits_NewLIR
               | apply only_emits_OpRegReg
               | apply only_emits_bind;
                 [apply only_emits_OpRegCopy|intros _];
                 first [apply only_emits_OpRegImm|apply only_emits_OpRegReg] ]).
  destruct op;
    try (intros cu a cu' H; discriminate H);
    try (apply only_emits_restores, only_emits_OpRegReg);
    try (apply only_emits_restores, only_emits_bind;
         [apply only_emits_OpReg|intros _; apply only_emits_OpRegReg]);
    apply (restores_borrow (fun t => OpRegCopy t r_src1)
                           (fun t => OpRegReg _ t r_src2)
                           (fun t => OpRegCopy r_dest t));
    intros t;
    first [apply only_emits_OpRegCopy|apply only_emits_OpRegReg].
Qed.

(** X3. Every returning call of the constant materializers, for every
    register class and value, leaves the old stream as a prefix of the
    new one and as many temporaries available as before. *)
Theorem materializers_restore_temps (r_lo r_hi val_lo val_hi : Z) :
  restores_temps (LoadConstantNoClobber r_lo val_lo)
  /\ restores_temps (LoadConstantValueWide r_lo r_hi val_lo val_hi).
Proof.
  split; [apply restores_LoadConstantNoClobber
         |apply restores_LoadConstantValueWide].
Qed.

(** X4. OpFpRegCopy builds its record without appending it.  In every
    returning call the two registers agree on being double, the opcode
    is the floating move of their classes, the operands are destination
    then source, and a self-copy is kept and flagged as a no-op. *)
Theorem OpFpRegCopy_record (r_dest r_src : Z) (cu cu' : CompilationUnit)
    (res : LIR) :
  OpFpRegCopy r_dest r_src cu = Ok (res, cu') ->
  cu' = cu
  /\ X86_DOUBLEREG r_dest = X86_DOUBLEREG r_src
  /\ opcode res
     = (if X86_DOUBLEREG r_dest then kX86MovsdRR
        else if X86_SINGLEREG r_dest then
          if X86_SINGLEREG r_src then kX86MovssRR else kX86MovdxrRR
        else kX86MovdrxRR)
  /\ operands res = [r_dest; r_src]
  /\ is_nop res = (r_dest =? r_src)
  /\ dalvik_offset res = current_dalvik_offset cu.
Proof.
  intros H. unfold OpFpRegCopy in H. run_in H.
  destruct (X86_DOUBLEREG r_dest) eqn:Hd, (X86_DOUBLEREG r_src) eqn:Hs;
    simpl in H; try discriminate H;
    split_run H; injection H as <- <-;
    repeat match goal with
           | E : _ = _ |- _ => rewrite E
           end; simpl; repeat split; reflexivity.
Qed.

(** X5. OpFpRegCopy faults when exactly one of the registers is double,
    and when neither the destination nor the source is a floating
    register. *)
Theorem OpFpRegCopy_faults (r_dest r_src : Z) (cu : CompilationUnit) :
  (X86_DOUBLEREG r_dest <> X86_DOUBLEREG r_src ->
   OpFpRegCopy r_dest r_src cu
   = Fatal "must be both DOUBLE or both not DOUBLE")
  /\ (X86_DOUBLEREG r_dest = false -> X86_DOUBLEREG r_src = false ->
      X86_SINGLEREG r_dest = false -> X86_SINGLEREG r_src = false ->
      OpFpRegCopy r_dest r_src cu = Fatal "X86_SINGLEREG(r_src)").
Proof.
  unfold OpFpRegCopy. split.
  - intros Hne. run.
    destruct (X86_DOUBLEREG r_dest), (X86_DOUBLEREG r_src);
      try reflexivity; congruence.
  - intros Hd Hs Hsd Hss. run. rewrite Hd, Hs, Hsd, Hss. reflexivity.
Qed.

(** X6. Narrowing to a byte: a source register outside the byte-addressable
    set (number 4 or more) is copied and narrowed by a shift pair, left
    then arithmetic right by 24; a byte-addressable source takes the
    single sign-extending move.  The returned record is the last one. *)
Theorem OpRegReg_2Byte (r_dest_src1 r_src2 : Z) (cu : CompilationUnit) :
  OpRegReg kOp2Byte r_dest_src1 r_src2 cu
  = if 4 <=? r_src2 then
      Ok (S (S (length (lirs cu))),
          emit cu [mkLIR (current_dalvik_offset cu) kX86Mov32RR
                         [r_dest_src1; r_src2];
                   mkLIR (current_dalvik_offset cu) kX86Sal32RI
                         [r_dest_src1; 24];
                   mkLIR (current_dalvik_offset cu) kX86Sar32RI
                         [r_dest_src1; 24]])
    else
      Ok (length (lirs cu),
          emit cu [mkLIR (current_dalvik_offset cu) kX86Movsx8RR
                         [r_dest_src1; r_src2]]).
Proof.
  unfold OpRegReg. destruct (4 <=? r_src2); run; [|reflexivity].
  rewrite !length_app, <- !app_assoc. simpl.
  repeat f_equal; lia.
Qed.

Lemma OpRegReg_direct (op : OpKind) (opc : X86OpCode) (r1 r2 : Z)
    (cu : CompilationUnit) :
  rr_form op = Some opc ->
  OpRegReg op r1 r2 cu
  = Ok (length (lirs cu),
        emit cu [mkLIR (current_dalvik_offset cu) opc [r1; r2]]).
Proof.
  intros Hop. destruct op; simpl in Hop; try discriminate;
    injection Hop as <-; reflexivity.
Qed.

(** X7. With the destination equal to the second source only, a
    commutative operation (add, or, adc, and, xor) is emitted as one
    record with the operands swapped: the destination is acted upon by
    the first source. *)
Theorem OpRegRegReg_commutative_swap (op : OpKind) (opc : X86OpCode)
    (r_dest r_src1 : Z) (cu : CompilationUnit) :
  is_commutative op = true -> rr_form op = Some opc -> r_dest <> r_src1 ->
  OpRegRegReg op r_dest r_src1 r_dest cu
  = Ok (length (lirs cu),
        emit cu [mkLIR (current_dalvik_offset cu) opc [r_dest; r_src1]]).
Proof.
  intros Hc Hop Hne. apply Z.eqb_neq in Hne.
  unfold OpRegRegReg. rewrite Hne, Z.eqb_refl. simpl.
  destruct op; simpl in Hc, Hop; try discriminate;
    injection Hop as <-; reflexivity.
Qed.

(** X8. With a destination that aliases neither source, an operation other
    than add that has a two-operand form is synthesized on
    general-purpose registers as the copy of the first source into the
    destination followed by the operation with the second source. *)
Theorem OpRegRegReg_copy_then_op (op : OpKind) (opc : X86OpCode)
    (r_dest r_src1 r_src2 : Z) (cu : CompilationUnit) :
  op <> kOpAdd -> rr_form op = Some opc ->
  r_dest <> r_src1 -> r_dest <> r_src2 ->
  X86_FPREG r_dest = false -> X86_FPREG r_src1 = false ->
  OpRegRegReg op r_dest r_src1 r_src2 cu
  = Ok (S (length (lirs cu)),
        emit cu [mkLIR (current_dalvik_offset cu) kX86Mov32RR
                       [r_dest; r_src1];
                 mkLIR (current_dalvik_offset cu) opc [r_dest; r_src2]]).
Proof.
  intros Hadd Hop H1 H2 Hd Hs. apply Z.eqb_neq in H1, H2.
  unfold OpRegRegReg. rewrite H1, H2. simpl.
  rewrite bool_decide_eq_false_2 by exact Hadd.
  unfold bind at 1. unfold OpRegCopy, OpRegCopyNoInsert.
  rewrite Hd, Hs, H1. run.
  rewrite (OpRegReg_direct _ _ _ _ _ Hop). unfold emit; simpl.
  rewrite length_app, <- app_assoc. simpl. repeat f_equal; lia.
Qed.

(** X9. Rotate-right has no register-register form: the synthesizer lists
    it among the operations that need a temporary, yet every call with
    it faults, whatever the aliasing. *)
Theorem OpRegRegReg_ror_faults (r_dest r_src1 r_src2 : Z)
    (cu : CompilationUnit) :
  exists msg, OpRegRegReg kOpRor r_dest r_src1 r_src2 cu = Fatal msg.
Proof.
  unfold OpRegRegReg.
  destruct (negb (r_dest =? r_src1) && negb (r_dest =? r_src2)); simpl.
  - unfold bind. destruct (OpRegCopy r_dest r_src1 cu) as [[a c]|m]; eauto.
  - destruct (r_dest =? r_src1); [eauto|].
    unfold bind. destruct (AllocTemp cu) as [[t c]|m]; [|eauto].
    destruct (OpRegCopy t r_src1 c) as [[a c']|m]; eauto.
Qed.

(** X10. With the destination equal to the second source only,
    subtract-with-borrow and the shifts go through a borrowed
    temporary: every returning call has taken the first free temporary
    [t], appended the copy of the first source into [t], the operation
    on [t] with the second source and the copy of [t] into the
    destination, given [t] back and returned the last copy.  A shift
    can only return this way when the destination is rCX; with any
    other destination the call faults. *)
Theorem OpRegRegReg_borrows_temp (op : OpKind) (opc : X86OpCode)
    (r_dest r_src1 : Z) (cu : CompilationUnit) :
  (op = kOpSbc /\ opc = kX86Sbb32RR) \/ shift_rc_form op = Some opc ->
  r_dest <> r_src1 ->
  (forall res cu',
     OpRegRegReg op r_dest r_src1 r_dest cu = Ok (res, cu') ->
     exists t p cp1 cp2,
       take_temp (reg_pool cu) = Some (t, p)
       /\ lirs cu' = lirs cu ++
            [cp1; mkLIR (current_dalvik_offset cu) opc [t; r_dest]; cp2]
       /\ is_copy_opcode (opcode cp1) = true /\ operands cp1 = [t; r_src1]
       /\ is_copy_opcode (opcode cp2) = true /\ operands cp2 = [r_dest; t]
       /\ reg_pool cu' = give_temp t p
       /\ res = S (S (length (lirs cu))))
  /\ (shift_rc_form op = Some opc -> r_dest <> rCX ->
      exists msg, OpRegRegReg op r_dest r_src1 r_dest cu = Fatal msg).
Proof.
  intros Hop Hne. apply Z.eqb_neq in Hne. split.
  - intros res cu' H.
    unfold OpRegRegReg in H. rewrite Hne, Z.eqb_refl in H. simpl in H.
    assert (Hops : op = kOpSbc \/ op = kOpLsl \/ op = kOpLsr \/ op = kOpAsr).
    { destruct Hop as [[-> _]|Hop]; [auto|].
      destruct op; simpl in Hop; try discriminate; auto. }
    unfold OpRegReg, OpRegCopy, OpRegCopyNoInsert, OpFpRegCopy in H.
    destruct Hops as [-> | [-> | [-> | ->]]];
      (destruct Hop as [[Hk ->]|Hop];
       [try discriminate Hk
       |simpl in Hop; try discriminate Hop; injection Hop as <-]);
      run_in H; split_run H; injection H as <- <-; simpl;
      do 4 eexists;
      (split; [reflexivity|]);
      (split; [rewrite <- !app_assoc; simpl; reflexivity|]);
      rewrite ?length_app; simpl;
      repeat split; try reflexivity; lia.
  - intros Hs Hcx. apply Z.eqb_neq in Hcx.
    unfold OpRegRegReg. rewrite Hne, Z.eqb_refl. simpl.
    destruct op; simpl in Hs; try discriminate;
      unfold bind;
      (destruct (AllocTemp cu) as [[t c]|m]; [|eauto]);
      (destruct (OpRegCopy t r_src1 c) as [[a c']|m]; [|eauto]);
      unfold OpRegReg; run; rewrite Hcx; simpl; eauto.
Qed.

(** X11. An and with mask 0xFF from a byte-addressable source, or with mask
    0xFFFF from any source, is emitted as one zero-extending move,
    whether or not the destination is the source.  With mask 0xFF and a
    source that is not byte-addressable the and is kept: on distinct
    general-purpose registers, the copy followed by the full-immediate
    and. *)
Theorem OpRegRegImm_and_mask (r_dest r_src : Z) (cu : CompilationUnit) :
  (r_src < 4 ->
   OpRegRegImm kOpAnd r_dest r_src 255 cu
   = Ok (length (lirs cu),
         emit cu [mkLIR (current_dalvik_offset cu) kX86Movzx8RR
                        [r_dest; r_src]]))
  /\ OpRegRegImm kOpAnd r_dest r_src 65535 cu
     = Ok (length (lirs cu),
           emit cu [mkLIR (current_dalvik_offset cu) kX86Movzx16RR
                          [r_dest; r_src]])
  /\ (4 <= r_src -> r_dest <> r_src ->
      X86_FPREG r_dest = false -> X86_FPREG r_src = false ->
      OpRegRegImm kOpAnd r_dest r_src 255 cu
      = Ok (S (length (lirs cu)),
            emit cu [mkLIR (current_dalvik_offset cu) kX86Mov32RR
                           [r_dest; r_src];
                     mkLIR (current_dalvik_offset cu) kX86And32RI
                           [r_dest; 255]])).
Proof.
  unfold OpRegRegImm. simpl. split; [|split].
  - intros Hlt. apply Z.ltb_lt in Hlt. rewrite Hlt. reflexivity.
  - reflexivity.
  - intros Hge Hne Hd Hs. apply Z.eqb_neq in Hne.
    replace (r_src <? 4) with false by (symmetry; apply Z.ltb_ge; lia).
    rewrite Hne. simpl.
    unfold OpRegCopy, OpRegCopyNoInsert, OpRegImm. rewrite Hd, Hs, Hne. run.
    rewrite length_app, <- app_assoc. simpl.
    repeat f_equal; lia.
Qed.

(** X12. An add of an immediate into a destination other than the source is
    one address computation whose base is the source and whose
    displacement is the immediate: no copy, and no immediate-width
    selection.  With the destination equal to the source it is the
    in-place add of OpRegImm. *)
Theorem OpRegRegImm_add (r_dest r_src value : Z) (cu : CompilationUnit) :
  (r_dest <> r_src ->
   OpRegRegImm kOpAdd r_dest r_src value cu
   = Ok (length (lirs cu),
         emit cu [mkLIR (current_dalvik_offset cu) kX86Lea32RA
                        [r_dest; r_src; r4sib_no_index; 0; value]]))
  /\ OpRegRegImm kOpAdd r_dest r_dest value cu
     = OpRegImm kOpAdd r_dest value cu.
Proof.
  unfold OpRegRegImm. simpl. split.
  - intros Hne. apply Z.eqb_neq in Hne. rewrite Hne. reflexivity.
  - rewrite Z.eqb_refl. reflexivity.
Qed.

(** X13. The address computation is used for add only: for every other
    operation, a left shift by 0 to 3 included, no record of a returning
    call is a lea. *)
Theorem OpRegRegImm_lea_only_for_add (op : OpKind) (r_dest r_src value : Z)
    (cu cu' : CompilationUnit) (res : LIRref) :
  op <> kOpAdd ->
  OpRegRegImm op r_dest r_src value cu = Ok (res, cu') ->
  exists new,
    cu' = emit cu new
    /\ Forall (fun l => opcode l <> kX86Lea32RA) new.
Proof.
  intros Hop H.
  unfold OpRegRegImm, OpRegImm, LoadConstantNoClobber, OpRegCopy,
    OpRegCopyNoInsert, OpFpRegCopy in H.
  destruct op; try congruence; simpl in H; run_in H; split_run H;
    try (simpl in *; congruence);
    injection H as <- <-; eexists;
    (split; [unfold emit; simpl; rewrite <- ?app_assoc; simpl; reflexivity|]);
    repeat constructor; discriminate.
Qed.

(** X14. The record a materialization returns is always the first one it
    appended.  For a non-zero value into a floating destination that is
    the immediate move into the borrowed temporary, not the move into
    the destination that follows it. *)
Theorem LoadConstantNoClobber_returns_first (r_dest value : Z)
    (cu cu' : CompilationUnit) (res : LIRref) :
  LoadConstantNoClobber r_dest value cu = Ok (res, cu') ->
  res = length (lirs cu)
  /\ (exists l, lirs cu' !! res = Some l
                /\ (l = mkLIR (current_dalvik_offset cu) kX86XorpsRR
                              [r_dest; r_dest]
                    \/ l = mkLIR (current_dalvik_offset cu) kX86Xor32RR
                                 [r_dest; r_dest]
                    \/ exists t, l = mkLIR (current_dalvik_offset cu)
                                           kX86Mov32RI [t; value]))
  /\ (X86_FPREG r_dest = true -> value <> 0 ->
      exists t p,
        take_temp (reg_pool cu) = Some (t, p)
        /\ lirs cu' !! res
           = Some (mkLIR (current_dalvik_offset cu) kX86Mov32RI [t; value])).
Proof.
  intros H. unfold LoadConstantNoClobber in H.
  destruct (X86_FPREG r_dest) eqn:Hfp; run_in H; try rewrite Hfp in H;
    split_run H; injection H as <- <-; simpl;
    (split; [reflexivity|]);
    rewrite <- ?app_assoc; simpl;
    rewrite list_lookup_middle by reflexivity;
    (split; [eexists; split; [reflexivity|]; eauto|]);
    intros Hf Hv; try discriminate Hf;
    try (apply Z.eqb_neq in Hv; congruence);
    eauto.
Qed.

(** X15. A 64-bit constant with both halves non-zero into a floating pair:
    every returning call has materialized the low half through a
    borrowed temporary, then the high half through a temporary borrowed
    anew, shifted the high register left by 32 and or-ed it into the
    low register: six records, the first of which is returned.  The
    call returns when both registers are single and a temporary is
    available. *)
Theorem LoadConstantValueWide_fp_both_halves
    (r_dest_lo r_dest_hi val_lo val_hi : Z) (cu : CompilationUnit) :
  X86_FPREG r_dest_lo = true -> X86_FPREG r_dest_hi = true ->
  val_lo <> 0 -> val_hi <> 0 ->
  (forall res cu',
     LoadConstantValueWide r_dest_lo r_dest_hi val_lo val_hi cu
     = Ok (res, cu') ->
     exists t p t' p',
       take_temp (reg_pool cu) = Some (t, p)
       /\ take_temp (give_temp t p) = Some (t', p')
       /\ lirs cu' = lirs cu ++
            [mkLIR (current_dalvik_offset cu) kX86Mov32RI [t; val_lo];
             mkLIR (current_dalvik_offset cu) kX86MovdxrRR [r_dest_lo; t];
             mkLIR (current_dalvik_offset cu) kX86Mov32RI [t'; val_hi];
             mkLIR (current_dalvik_offset cu) kX86MovdxrRR [r_dest_hi; t'];
             mkLIR (current_dalvik_offset cu) kX86PsllqRI [r_dest_hi; 32];
             mkLIR (current_dalvik_offset cu) kX86OrpsRR
                   [r_dest_lo; r_dest_hi]]
       /\ reg_pool cu' = give_temp t' p'
       /\ res = length (lirs cu))
  /\ (X86_SINGLEREG r_dest_lo = true -> X86_SINGLEREG r_dest_hi = true ->
      (0 < available_temps cu)%nat ->
      exists res cu',
        LoadConstantValueWide r_dest_lo r_dest_hi val_lo val_hi cu
        = Ok (res, cu')).
Proof.
  intros Hlo Hhi Hvl Hvh. apply Z.eqb_neq in Hvl, Hvh.
  unfold LoadConstantValueWide, LoadConstantNoClobber.
  rewrite Hlo, Hhi, Hvl, Hvh. simpl. split.
  - intros res cu' H. run_in H. split_run H. injection H as <- <-. simpl.
    do 4 eexists. split; [reflexivity|]. split; [eassumption|].
    rewrite <- !app_assoc. simpl. repeat split; reflexivity.
  - intros Hsl Hsh Hav. unfold AllocTemp, FreeTemp. run.
    rewrite Hsl, Hsh. simpl.
    destruct (take_temp_some _ Hav) as (t & p & Ht). rewrite Ht. simpl.
    assert (Hav' : (0 < length (filter (fun i => in_use i = false)
                                       (give_temp t p)))%nat).
    { rewrite (give_take_available _ _ _ Ht). exact Hav. }
    destruct (take_temp_some _ Hav') as (t' & p' & Ht'). rewrite Ht'. simpl.
    eauto.
Qed.

(** X16. A byte-width load or store carries no alignment or register-class
    assertion: for every displacement and every register it returns
    with exactly one record, the zero- or sign-extending byte load, or
    the byte store, which does not depend on signedness. *)
Theorem byte_access_any_displacement
    (rBase r_index scale displacement r r_hi : Z) (size : OpSize)
    (s_reg : Z) (cu : CompilationUnit) :
  is_byte_size size = true ->
  code (LoadBaseIndexedDisp rBase r_index scale displacement r r_hi size
                            s_reg) cu
  = Some [match size with
          | kUnsignedByte =>
              load_shape kX86Movzx8RM kX86Movzx8RA rBase r_index scale
                         (displacement + LOWORD_OFFSET) r
          | _ =>
              load_shape kX86Movsx8RM kX86Movsx8RA rBase r_index scale
                         (displacement + LOWORD_OFFSET) r
          end]
  /\ code (StoreBaseIndexedDisp rBase r_index scale displacement r r_hi size
                                s_reg) cu
     = Some [store_shape kX86Mov8MR kX86Mov8AR rBase r_index scale
                         (displacement + LOWORD_OFFSET) r].
Proof.
  intros Hsz.
  unfold code, emitted, LoadBaseIndexedDisp, StoreBaseIndexedDisp,
    load_shape, store_shape, AnnotateDalvikRegAccess.
  destruct size; try discriminate; run;
    destruct (r_index =? INVALID_REG); simpl;
    destruct (rBase =? rX86_SP); simpl;
    norm_stream; rewrite ?drop_app_length; split; reflexivity.
Qed.

(** X17. A word- or single-width access at an aligned displacement is one
    record: the 32-bit move for a general-purpose register, the scalar
    single move for a floating single register.  A floating register
    that is not single fails the register-class assertion. *)
Theorem word_access_by_class
    (rBase r_index scale displacement r r_hi : Z) (size : OpSize)
    (s_reg : Z) (cu : CompilationUnit) :
  is_word_size size = true -> Z.land displacement 3 = 0 ->
  let ld := LoadBaseIndexedDisp rBase r_index scale displacement r r_hi size
                                s_reg in
  let st := StoreBaseIndexedDisp rBase r_index scale displacement r r_hi size
                                 s_reg in
  (X86_FPREG r = false ->
   code ld cu
   = Some [load_shape kX86Mov32RM kX86Mov32RA rBase r_index scale
                      (displacement + LOWORD_OFFSET) r]
   /\ code st cu
      = Some [store_shape kX86Mov32MR kX86Mov32AR rBase r_index scale
                          (displacement + LOWORD_OFFSET) r])
  /\ (X86_FPREG r = true -> X86_SINGLEREG r = true ->
      code ld cu
      = Some [load_shape kX86MovssRM kX86MovssRA rBase r_index scale
                         (displacement + LOWORD_OFFSET) r]
      /\ code st cu
         = Some [store_shape kX86MovssMR kX86MovssAR rBase r_index scale
                             (displacement + LOWORD_OFFSET) r])
  /\ (X86_FPREG r = true -> X86_SINGLEREG r = false ->
      ld cu = Fatal "X86_SINGLEREG(r_dest)"
      /\ st cu = Fatal "X86_SINGLEREG(r_src)").
Proof.
  intros Hsz Hal ld st. subst ld st.
  unfold code, emitted, LoadBaseIndexedDisp, StoreBaseIndexedDisp,
    load_shape, store_shape, AnnotateDalvikRegAccess.
  rewrite Hal.
  split; [|split]; intros Hfp; try intros Hs; rewrite Hfp; try rewrite Hs;
    destruct size; try discriminate; run;
    try (split; reflexivity);
    destruct (r_index =? INVALID_REG); simpl;
    destruct (rBase =? rX86_SP); simpl;
    norm_stream; rewrite ?drop_app_length; split; reflexivity.
Qed.

(** X18. A 64-bit access of a floating register at an aligned displacement
    is never split: it is one scalar double move.  A single register is
    first aliased with its partner into the double handle, which needs
    the partner to be floating and to be the next register, otherwise
    the call faults; a register that is already double is used as it
    is and the high register given is ignored. *)
Theorem fp_wide_access_single_move
    (rBase r_index scale displacement r r_hi : Z) (size : OpSize)
    (s_reg : Z) (cu : CompilationUnit) :
  is_wide_size size = true -> X86_FPREG r = true ->
  Z.land displacement 3 = 0 ->
  let ld := LoadBaseIndexedDisp rBase r_index scale displacement r r_hi size
                                s_reg in
  let st := StoreBaseIndexedDisp rBase r_index scale displacement r r_hi size
                                 s_reg in
  (X86_SINGLEREG r = true -> X86_FPREG r_hi = true -> r = r_hi - 1 ->
   code ld cu
   = Some [load_shape kX86MovsdRM kX86MovsdRA rBase r_index scale
                      (displacement + LOWORD_OFFSET) (S2d r r_hi)]
   /\ code st cu
      = Some [store_shape kX86MovsdMR kX86MovsdAR rBase r_index scale
                          (displacement + LOWORD_OFFSET) (S2d r r_hi)])
  /\ (X86_SINGLEREG r = true ->
      X86_FPREG r_hi = false \/ r <> r_hi - 1 ->
      (exists msg, ld cu = Fatal msg) /\ (exists msg, st cu = Fatal msg))
  /\ (X86_SINGLEREG r = false ->
      code ld cu
      = Some [load_shape kX86MovsdRM kX86MovsdRA rBase r_index scale
                         (displacement + LOWORD_OFFSET) r]
      /\ code st cu
         = Some [store_shape kX86MovsdMR kX86MovsdAR rBase r_index scale
                             (displacement + LOWORD_OFFSET) r]).
Proof.
  intros Hsz Hfp Hal ld st. subst ld st.
  unfold code, emitted, LoadBaseIndexedDisp, StoreBaseIndexedDisp,
    load_shape, store_shape, AnnotateDalvikRegAccess.
  rewrite Hfp, Hal.
  split; [|split]; intros Hs; rewrite Hs.
  - intros Hhi Heq. apply Z.eqb_eq in Heq.
    unfold DCHECK_EQ. rewrite Hhi, Heq.
    destruct size; try discriminate; run;
      destruct (r_index =? INVALID_REG); simpl;
      destruct (rBase =? rX86_SP); simpl;
      norm_stream; rewrite ?drop_app_length; split; reflexivity.
  - intros Hbad. unfold DCHECK_EQ.
    destruct size; try discriminate; run;
      (destruct (X86_FPREG r_hi); simpl; [|split; eauto]);
      (destruct Hbad as [Hbad|Hbad]; [discriminate Hbad|]);
      apply Z.eqb_neq in Hbad; rewrite Hbad; simpl; split; eauto.
  - destruct size; try discriminate; run;
      destruct (r_index =? INVALID_REG); simpl;
      destruct (rBase =? rX86_SP); simpl;
      norm_stream; rewrite ?drop_app_length; split; reflexivity.
Qed.

(** X19. Exactly the plain accesses through the stack pointer are annotated
    for the stack map.  Every returning load or store has only appended
    records, at least one, and each of them carries an annotation, with
    the direction of the access and the 64-bit flag of its size, when
    the access has no index register and its base is the stack pointer;
    in every other case none of them carries one (an indexed access off
    the stack pointer included). *)
Theorem frame_access_annotation
    (rBase r_index scale displacement r r_hi : Z) (size : OpSize)
    (s_reg : Z) (cu : CompilationUnit) :
  let marked (ld : bool) (l : LIR) :=
    if (r_index =? INVALID_REG) && (rBase =? rX86_SP)
    then exists slot,
           frame_access l
           = Some {| slot_index := slot; is_load := ld;
                     is_wide := is_wide_size size |}
    else frame_access l = None in
  (forall res cu',
     LoadBaseIndexedDisp rBase r_index scale displacement r r_hi size s_reg
                         cu = Ok (res, cu') ->
     exists new, new <> [] /\ cu' = emit cu new /\ Forall (marked true) new)
  /\ (forall res cu',
        StoreBaseIndexedDisp rBase r_index scale displacement r r_hi size
                             s_reg cu = Ok (res, cu') ->
        exists new,
          new <> [] /\ cu' = emit cu new /\ Forall (marked false) new).
Proof.
  intros marked. subst marked. split; intros res cu' H.
  - unfold LoadBaseIndexedDisp in H.
    destruct size; run_in H; split_run H;
      try (simpl in *; congruence); injection H as <- <-;
      eexists; (split; [|split; [unfold emit; norm_stream; reflexivity|]]);
      try discriminate; simpl; repeat constructor; simpl;
      use_conditions; simpl; eauto.
  - unfold StoreBaseIndexedDisp in H.
    destruct size; run_in H; split_run H;
      try (simpl in *; congruence); injection H as <- <-;
      eexists; (split; [|split; [unfold emit; norm_stream; reflexivity|]]);
      try discriminate; simpl; repeat constructor; simpl;
      use_conditions; simpl; eauto.
Qed.

(** X20. A 64-bit general-purpose pair moved to or from the frame: each
    half is annotated with the slot of its own displacement (the
    displacement shifted right by 2) and the 64-bit flag, also when the
    load emits the high half first because the low destination is the
    stack pointer itself. *)
Theorem wide_pair_frame_slots
    (scale displacement r_lo r_hi : Z) (size : OpSize) (s_reg : Z)
    (cu : CompilationUnit) :
  is_wide_size size = true -> X86_FPREG r_lo = false ->
  Z.land displacement 3 = 0 ->
  let half opc ops d ld :=
    set_frame_access (frame_slot d ld true)
                     (mkLIR (current_dalvik_offset cu) opc ops) in
  let lo := displacement + LOWORD_OFFSET in
  let hi := displacement + HIWORD_OFFSET in
  LoadBaseIndexedDisp rX86_SP INVALID_REG scale displacement r_lo r_hi size
                      s_reg cu
  = (if rX86_SP =? r_lo
     then Ok (S (length (lirs cu)),
              emit cu [half kX86Mov32RM [r_hi; rX86_SP; hi] hi true;
                       half kX86Mov32RM [r_lo; rX86_SP; lo] lo true])
     else Ok (length (lirs cu),
              emit cu [half kX86Mov32RM [r_lo; rX86_SP; lo] lo true;
                       half kX86Mov32RM [r_hi; rX86_SP; hi] hi true]))
  /\ StoreBaseIndexedDisp rX86_SP INVALID_REG scale displacement r_lo r_hi
                          size s_reg cu
     = Ok (length (lirs cu),
           emit cu [half kX86Mov32MR [rX86_SP; lo; r_lo] lo false;
                    half kX86Mov32MR [rX86_SP; hi; r_hi] hi false]).
Proof.
  intros Hsz Hfp Hal half lo hi. subst half lo hi.
  unfold LoadBaseIndexedDisp, StoreBaseIndexedDisp, AnnotateDalvikRegAccess,
    frame_slot.
  rewrite Hfp, Hal, !Z.eqb_refl.
  destruct size; try discriminate; run;
    destruct (rX86_SP =? r_lo); simpl; norm_stream;
    split; repeat f_equal; lia.
Qed.

(** X21. The record a 64-bit pair access returns is the low half: the
    second record appended when the load put the high half first, the
    first record otherwise and for every store. *)
Theorem wide_pair_returns_low_half
    (rBase r_index scale displacement r_lo r_hi : Z) (size : OpSize)
    (s_reg : Z) (cu : CompilationUnit) :
  is_wide_size size = true -> X86_FPREG r_lo = false ->
  Z.land displacement 3 = 0 ->
  (exists cu',
     LoadBaseIndexedDisp rBase r_index scale displacement r_lo r_hi size
                         s_reg cu
     = Ok ((if rBase =? r_lo then S (length (lirs cu))
            else length (lirs cu)), cu')
     /\ shape <$> (lirs cu' !! (if rBase =? r_lo then S (length (lirs cu))
                                else length (lirs cu)))
        = Some (load_half rBase r_index scale
                          (displacement + LOWORD_OFFSET) r_lo))
  /\ (exists cu',
        StoreBaseIndexedDisp rBase r_index scale displacement r_lo r_hi size
                             s_reg cu
        = Ok (length (lirs cu), cu')
        /\ shape <$> (lirs cu' !! length (lirs cu))
           = Some (store_half rBase r_index scale
                              (displacement + LOWORD_OFFSET) r_lo)).
Proof.
  intros Hsz Hfp Hal.
  unfold LoadBaseIndexedDisp, StoreBaseIndexedDisp, AnnotateDalvikRegAccess,
    load_half, store_half.
  rewrite Hfp, Hal.
  destruct size; try discriminate; run;
    destruct (r_index =? INVALID_REG); simpl;
    destruct (rBase =? r_lo); simpl;
    destruct (rBase =? rX86_SP); simpl;
    rewrite ?length_app; simpl;
    replace (length (lirs cu) + 1)%nat with (S (length (lirs cu))) by lia;
    (split; eexists; (split; [reflexivity|]); simpl; norm_stream;
     first [rewrite lookup_at_end0|rewrite lookup_at_end1]; reflexivity).
Qed.

(** X22. Move-not and negate through the register-register selector are a
    copy of the source into the destination followed by the in-place
    unary operation.  Every returning call has appended exactly these
    two records and returned the second; on general-purpose registers
    the call returns, and when source and destination are the same
    register the copy is still there, flagged as a no-op. *)
Theorem OpRegReg_unary (op : OpKind) (opc : X86OpCode)
    (r_dest_src1 r_src2 : Z) (cu : CompilationUnit) :
  (op = kOpMvn /\ opc = kX86Not32R) \/ (op = kOpNeg /\ opc = kX86Neg32R) ->
  (forall res cu',
     OpRegReg op r_dest_src1 r_src2 cu = Ok (res, cu') ->
     exists cp,
       cu' = emit cu [cp; mkLIR (current_dalvik_offset cu) opc [r_dest_src1]]
       /\ is_copy_opcode (opcode cp) = true
       /\ operands cp = [r_dest_src1; r_src2]
       /\ is_nop cp = (r_dest_src1 =? r_src2)
       /\ res = S (length (lirs cu)))
  /\ (X86_FPREG r_dest_src1 = false -> X86_FPREG r_src2 = false ->
      exists res cu', OpRegReg op r_dest_src1 r_src2 cu = Ok (res, cu')).
Proof.
  intros Hop.
  unfold OpRegReg, OpReg, OpRegCopy, OpRegCopyNoInsert, OpFpRegCopy.
  destruct Hop as [[-> ->]|[-> ->]]; (split;
    [ intros res cu' H; run_in H; split_run H; injection H as <- <-;
      eexists;
      (split; [unfold emit; simpl; rewrite <- app_assoc; reflexivity|]);
      rewrite ?length_app; simpl; repeat split; try reflexivity; lia
    | intros Hd Hs; rewrite Hd, Hs; run; eauto ]).
Qed.

(** X23. Which operations the one-shape selectors accept.  OpReg returns for
    negate, not and indirect call only; OpRegImm returns for the three
    shifts, add, or, adc, and, sub, xor, compare, move and multiply on
    a register that is not floating (there is no subtract-with-borrow
    immediate); OpRegMem returns for sub, move, compare, add, and, or,
    xor and the three narrowing moves (there is no multiply from
    memory).  Every other request faults. *)
Theorem selector_domains (op : OpKind) (r1 r2 v : Z) (cu : CompilationUnit) :
  ((exists res cu', OpReg op r1 cu = Ok (res, cu'))
   <-> op ∈ [kOpNeg; kOpNot; kOpBlx])
  /\ ((exists res cu', OpRegImm op r1 v cu = Ok (res, cu'))
      <-> X86_FPREG r1 = false
          /\ op ∈ [kOpLsl; kOpLsr; kOpAsr; kOpAdd; kOpOr; kOpAdc; kOpAnd;
                   kOpSub; kOpXor; kOpCmp; kOpMov; kOpMul])
  /\ ((exists res cu', OpRegMem op r1 r2 v cu = Ok (res, cu'))
      <-> op ∈ [kOpSub; kOpMov; kOpCmp; kOpAdd; kOpAnd; kOpOr; kOpXor;
                kOp2Byte; kOp2Short; kOp2Char]).
Proof.
  split; [|split].
  - unfold OpReg. split.
    + intros (res & cu' & H).
      destruct op; run_in H; try discriminate H;
        repeat first [apply list_elem_of_here | apply list_elem_of_further].
    + intros Hin. destruct op; run; eauto;
        exfalso; repeat (apply elem_of_cons in Hin as [Hin|Hin];
                         [discriminate Hin|]);
        apply elem_of_nil in Hin; exact Hin.
  - unfold OpRegImm, LoadConstantNoClobber. split.
    + intros (res & cu' & H). run_in H.
      destruct (X86_FPREG r1); simpl in H; [discriminate H|].
      split; [reflexivity|].
      destruct op; try discriminate H;
        repeat first [apply list_elem_of_here | apply list_elem_of_further].
    + intros [Hfp Hin]. run. rewrite Hfp. simpl.
      destruct op; try rewrite Hfp; simpl;
        try (destruct (v =? 0); simpl); eauto;
        exfalso; repeat (apply elem_of_cons in Hin as [Hin|Hin];
                         [discriminate Hin|]);
        apply elem_of_nil in Hin; exact Hin.
  - unfold OpRegMem. split.
    + intros (res & cu' & H).
      destruct op; run_in H; try discriminate H;
        repeat first [apply list_elem_of_here | apply list_elem_of_further].
    + intros Hin. destruct op; run; eauto;
        exfalso; repeat (apply elem_of_cons in Hin as [Hin|Hin];
                         [discriminate Hin|]);
        apply elem_of_nil in Hin; exact Hin.
Qed.

(** X24. The indexed wrappers access displacement 0, which every size
    accepts: on a general-purpose register LoadBaseIndexed and
    StoreBaseIndexed return for every size, base, index and scale.
    They hand INVALID_REG on as the high register, so a 64-bit request
    names INVALID_REG in its high-half record. *)
Theorem indexed_wrappers_return (rBase r_index r scale : Z) (size : OpSize)
    (cu : CompilationUnit) :
  X86_FPREG r = false ->
  (exists res cu', LoadBaseIndexed rBase r_index r scale size cu
                   = Ok (res, cu'))
  /\ (exists res cu', StoreBaseIndexed rBase r_index r scale size cu
                      = Ok (res, cu'))
  /\ (is_wide_size size = true ->
      code (StoreBaseIndexed rBase r_index r scale size) cu
      = Some [store_half rBase r_index scale (0 + LOWORD_OFFSET) r;
              store_half rBase r_index scale (0 + HIWORD_OFFSET)
                         INVALID_REG]).
Proof.
  intros Hfp.
  unfold code, emitted, LoadBaseIndexed, StoreBaseIndexed,
    LoadBaseIndexedDisp, StoreBaseIndexedDisp, AnnotateDalvikRegAccess,
    store_half.
  rewrite Hfp.
  split; [|split]; try intros Hsz;
    destruct size; try discriminate; run;
    destruct (r_index =? INVALID_REG); simpl;
    try (destruct (rBase =? r); simpl);
    destruct (rBase =? rX86_SP); simpl; eauto;
    norm_stream; rewrite ?drop_app_length; reflexivity.
Qed.

End MoreProperties.

(** ** Further evaluations on the concrete layout *)

Lemma selectors_only_emit_witness :
  OpRegReg (T:=art_x86) kOp2Byte 0 5 cu0
  = Ok (2%nat, emit cu0 [mkLIR 0 kX86Mov32RR [0; 5];
                         mkLIR 0 kX86Sal32RI [0; 24];
                         mkLIR 0 kX86Sar32RI [0; 24]])
  /\ exists new,
       new <> []
       /\ emit cu0 [mkLIR 0 kX86Mov32RR [0; 5]; mkLIR 0 kX86Sal32RI [0; 24];
                    mkLIR 0 kX86Sar32RI [0; 24]]
          = emit cu0 new.
Proof.
  split; [reflexivity|].
  exact (proj1 (proj2 (proj2 (selectors_only_emit (T:=art_x86) kOp2Byte 0 5 0)))
           cu0 _ _ eq_refl).
Defined.

Lemma OpRegRegReg_restores_temps_witness :
  OpRegRegReg (T:=art_x86) kOpLsl 1 3 1 cu0
  = Ok (2%nat, emit cu0 [mkLIR 0 kX86Mov32RR [0; 3];
                         mkLIR 0 kX86Sal32RC [0; 1];
                         mkLIR 0 kX86Mov32RR [1; 0]])
  /\ lirs cu0 `prefix_of`
       lirs (emit cu0 [mkLIR 0 kX86Mov32RR [0; 3];
                       mkLIR 0 kX86Sal32RC [0; 1];
                       mkLIR 0 kX86Mov32RR [1; 0]])
  /\ available_temps
       (emit cu0 [mkLIR 0 kX86Mov32RR [0; 3]; mkLIR 0 kX86Sal32RC [0; 1];
                  mkLIR 0 kX86Mov32RR [1; 0]])
     = available_temps cu0.
Proof.
  split; [reflexivity|].
  destruct (OpRegRegReg_restores_temps (T:=art_x86) kOpLsl 1 3 1 cu0 _ _
              eq_refl) as (Hp & Ha & _).
  split; [exact Hp|exact Ha].
Defined.

Lemma materializers_restore_temps_witness :
  exists res cu',
    LoadConstantValueWide (T:=art_x86) 32 33 5 9 cu0 = Ok (res, cu')
    /\ length (lirs cu') = 6%nat
    /\ available_temps cu' = available_temps cu0.
Proof.
  eexists _, _. split; [reflexivity|]. split; [reflexivity|].
  exact (proj1 (proj2 (proj2 (materializers_restore_temps (T:=art_x86)
                                32 33 5 9) cu0 _ _ eq_refl))).
Defined.

Lemma OpFpRegCopy_record_witness :
  exists res,
    OpFpRegCopy (T:=art_x86) 32 32 cu0 = Ok (res, cu0)
    /\ opcode res = kX86MovssRR
    /\ operands res = [32; 32]
    /\ is_nop res = true.
Proof.
  eexists. split; [reflexivity|].
  destruct (OpFpRegCopy_record (T:=art_x86) 32 32 cu0 _ _ eq_refl)
    as (_ & _ & Ho & Hops & Hn & _).
  split; [exact Ho|]. split; [exact Hops|exact Hn].
Defined.

Lemma OpFpRegCopy_faults_witness :
  @X86_DOUBLEREG art_x86 48 <> @X86_DOUBLEREG art_x86 32
  /\ OpFpRegCopy (T:=art_x86) 48 32 cu0
     = Fatal "must be both DOUBLE or both not DOUBLE"
  /\ OpFpRegCopy (T:=art_x86) 0 1 cu0 = Fatal "X86_SINGLEREG(r_src)".
Proof.
  split; [discriminate|]. split.
  - exact (proj1 (OpFpRegCopy_faults (T:=art_x86) 48 32 cu0)
             ltac:(discriminate)).
  - exact (proj2 (OpFpRegCopy_faults (T:=art_x86) 0 1 cu0)
             eq_refl eq_refl eq_refl eq_refl).
Defined.

Lemma OpRegRegReg_commutative_swap_witness :
  is_commutative kOpXor = true
  /\ rr_form kOpXor = Some kX86Xor32RR
  /\ 0 <> 3
  /\ OpRegRegReg (T:=art_x86) kOpXor 0 3 0 cu0
     = Ok (0%nat, emit cu0 [mkLIR 0 kX86Xor32RR [0; 3]]).
Proof.
  split; [reflexivity|]. split; [reflexivity|]. split; [lia|].
  exact (OpRegRegReg_commutative_swap (T:=art_x86) kOpXor kX86Xor32RR 0 3 cu0
           eq_refl eq_refl ltac:(lia)).
Defined.

Lemma OpRegRegReg_copy_then_op_witness :
  kOpSub <> kOpAdd
  /\ rr_form kOpSub = Some kX86Sub32RR
  /\ 0 <> 3 /\ 0 <> 1
  /\ OpRegRegReg (T:=art_x86) kOpSub 0 3 1 cu0
     = Ok (1%nat, emit cu0 [mkLIR 0 kX86Mov32RR [0; 3];
                            mkLIR 0 kX86Sub32RR [0; 1]]).
Proof.
  split; [discriminate|]. split; [reflexivity|].
  split; [lia|]. split; [lia|].
  exact (OpRegRegReg_copy_then_op (T:=art_x86) kOpSub kX86Sub32RR 0 3 1 cu0
           ltac:(discriminate) eq_refl ltac:(lia) ltac:(lia)
           eq_refl eq_refl).
Defined.

Lemma OpRegRegReg_borrows_temp_witness :
  shift_rc_form kOpLsl = Some kX86Sal32RC
  /\ 1 <> 3
  /\ (exists t p cp1 cp2,
        take_temp (reg_pool cu0) = Some (t, p)
        /\ [mkLIR 0 kX86Mov32RR [0; 3]; mkLIR 0 kX86Sal32RC [0; 1];
            mkLIR 0 kX86Mov32RR [1; 0]]
           = [cp1; mkLIR 0 kX86Sal32RC [t; 1]; cp2]
        /\ is_copy_opcode (opcode cp1) = true /\ operands cp1 = [t; 3]
        /\ is_copy_opcode (opcode cp2) = true /\ operands cp2 = [1; t]
        /\ reg_pool cu0 = give_temp t p
        /\ 2%nat = 2%nat)
  /\ 2 <> @rCX art_x86
  /\ exists msg, OpRegRegReg (T:=art_x86) kOpLsl 2 3 2 cu0 = Fatal msg.
Proof.
  split; [reflexivity|]. split; [lia|]. split.
  - exact (proj1 (OpRegRegReg_borrows_temp (T:=art_x86) kOpLsl kX86Sal32RC
                    1 3 cu0 (or_intror eq_refl) ltac:(lia))
             _ _ eq_refl).
  - split; [discriminate|].
    exact (proj2 (OpRegRegReg_borrows_temp (T:=art_x86) kOpLsl kX86Sal32RC
                    2 3 cu0 (or_intror eq_refl) ltac:(lia))
             eq_refl ltac:(discriminate)).
Defined.

Lemma OpRegRegImm_and_mask_witness :
  3 < 4
  /\ OpRegRegImm (T:=art_x86) kOpAnd 0 3 255 cu0
     = Ok (0%nat, emit cu0 [mkLIR 0 kX86Movzx8RR [0; 3]])
  /\ 4 <= 6 /\ 0 <> 6
  /\ OpRegRegImm (T:=art_x86) kOpAnd 0 6 255 cu0
     = Ok (1%nat, emit cu0 [mkLIR 0 kX86Mov32RR [0; 6];
                            mkLIR 0 kX86And32RI [0; 255]]).
Proof.
  split; [lia|]. split.
  - exact (proj1 (OpRegRegImm_and_mask (T:=art_x86) 0 3 cu0) ltac:(lia)).
  - split; [lia|]. split; [lia|].
    exact (proj2 (proj2 (OpRegRegImm_and_mask (T:=art_x86) 0 6 cu0))
             ltac:(lia) ltac:(lia) eq_refl eq_refl).
Defined.

Lemma OpRegRegImm_add_witness :
  0 <> 3
  /\ OpRegRegImm (T:=art_x86) kOpAdd 0 3 1000 cu0
     = Ok (0%nat, emit cu0 [mkLIR 0 kX86Lea32RA [0; 3; 4; 0; 1000]]).
Proof.
  split; [lia|].
  exact (proj1 (OpRegRegImm_add (T:=art_x86) 0 3 1000 cu0) ltac:(lia)).
Defined.

Lemma OpRegRegImm_lea_only_for_add_witness :
  kOpLsl <> kOpAdd
  /\ OpRegRegImm (T:=art_x86) kOpLsl 0 3 2 cu0
     = Ok (1%nat, emit cu0 [mkLIR 0 kX86Mov32RR [0; 3];
                            mkLIR 0 kX86Sal32RI [0; 2]])
  /\ exists new,
       emit cu0 [mkLIR 0 kX86Mov32RR [0; 3]; mkLIR 0 kX86Sal32RI [0; 2]]
       = emit cu0 new
       /\ Forall (fun l => opcode l <> kX86Lea32RA) new.
Proof.
  split; [discriminate|]. split; [reflexivity|].
  exact (OpRegRegImm_lea_only_for_add (T:=art_x86) kOpLsl 0 3 2 cu0 _ _
           ltac:(discriminate) eq_refl).
Defined.

Lemma LoadConstantNoClobber_returns_first_witness :
  exists res cu',
    LoadConstantNoClobber (T:=art_x86) 32 7 cu0 = Ok (res, cu')
    /\ res = length (lirs cu0)
    /\ length (lirs cu') = 2%nat.
Proof.
  eexists _, _. split; [reflexivity|]. split; [|reflexivity].
  exact (proj1 (LoadConstantNoClobber_returns_first (T:=art_x86) 32 7 cu0 _ _
                  eq_refl)).
Defined.

Lemma LoadConstantValueWide_fp_both_halves_witness :
  @X86_FPREG art_x86 32 = true /\ @X86_FPREG art_x86 33 = true
  /\ 5 <> 0 /\ 9 <> 0
  /\ exists res cu',
       LoadConstantValueWide (T:=art_x86) 32 33 5 9 cu0 = Ok (res, cu').
Proof.
  split; [reflexivity|]. split; [reflexivity|].
  split; [lia|]. split; [lia|].
  exact (proj2 (LoadConstantValueWide_fp_both_halves (T:=art_x86) 32 33 5 9
                  cu0 eq_refl eq_refl ltac:(lia) ltac:(lia))
           eq_refl eq_refl ltac:(vm_compute; lia)).
Defined.

Lemma byte_access_any_displacement_witness :
  is_byte_size kUnsignedByte = true
  /\ code (LoadBaseIndexedDisp (T:=art_x86) 0 3 0 7 1 255 kUnsignedByte 0) cu0
     = Some [(kX86Movzx8RA, [1; 0; 3; 0; 7])]
  /\ code (StoreBaseIndexedDisp (T:=art_x86) 0 3 0 7 1 255 kUnsignedByte 0)
          cu0
     = Some [(kX86Mov8AR, [0; 3; 0; 7; 1])].
Proof.
  split; [reflexivity|].
  exact (byte_access_any_displacement (T:=art_x86) 0 3 0 7 1 255
           kUnsignedByte 0 cu0 eq_refl).
Defined.

Lemma word_access_by_class_witness :
  is_word_size kSingle = true /\ Z.land 8 3 = 0
  /\ @X86_FPREG art_x86 33 = true /\ @X86_SINGLEREG art_x86 33 = true
  /\ code (LoadBaseIndexedDisp (T:=art_x86) 0 255 0 8 33 255 kSingle 0) cu0
     = Some [(kX86MovssRM, [33; 0; 8])]
  /\ @X86_FPREG art_x86 48 = true /\ @X86_SINGLEREG art_x86 48 = false
  /\ StoreBaseIndexedDisp (T:=art_x86) 0 255 0 8 48 255 kSingle 0 cu0
     = Fatal "X86_SINGLEREG(r_src)".
Proof.
  split; [reflexivity|]. split; [reflexivity|].
  split; [reflexivity|]. split; [reflexivity|]. split.
  - exact (proj1 (proj1 (proj2 (word_access_by_class (T:=art_x86) 0 255 0 8
                                  33 255 kSingle 0 cu0 eq_refl eq_refl))
                    eq_refl eq_refl)).
  - split; [reflexivity|]. split; [reflexivity|].
    exact (proj2 (proj2 (proj2 (word_access_by_class (T:=art_x86) 0 255 0 8
                                  48 255 kSingle 0 cu0 eq_refl eq_refl))
                    eq_refl eq_refl)).
Defined.

Lemma fp_wide_access_single_move_witness :
  is_wide_size kDouble = true /\ @X86_FPREG art_x86 32 = true
  /\ Z.land 8 3 = 0
  /\ @X86_SINGLEREG art_x86 32 = true /\ @X86_FPREG art_x86 33 = true
  /\ 32 = 33 - 1
  /\ code (LoadBaseIndexedDisp (T:=art_x86) 0 255 0 8 32 33 kDouble 0) cu0
     = Some [(kX86MovsdRM, [48; 0; 8])]
  /\ (@X86_FPREG art_x86 2 = false \/ 32 <> 2 - 1)
  /\ exists msg,
       LoadBaseIndexedDisp (T:=art_x86) 0 255 0 8 32 2 kDouble 0 cu0
       = Fatal msg.
Proof.
  split; [reflexivity|]. split; [reflexivity|]. split; [reflexivity|].
  split; [reflexivity|]. split; [reflexivity|]. split; [reflexivity|].
  split.
  - exact (proj1 (proj1 (fp_wide_access_single_move (T:=art_x86) 0 255 0 8
                           32 33 kDouble 0 cu0 eq_refl eq_refl eq_refl)
                    eq_refl eq_refl eq_refl)).
  - split; [left; reflexivity|].
    exact (proj1 (proj1 (proj2 (fp_wide_access_single_move (T:=art_x86)
                                  0 255 0 8 32 2 kDouble 0 cu0
                                  eq_refl eq_refl eq_refl))
                    eq_refl (or_introl eq_refl))).
Defined.

Lemma frame_access_annotation_witness :
  LoadBaseIndexedDisp (T:=art_x86) 4 255 0 8 1 255 kWord 0 cu0
  = Ok (0%nat,
        emit cu0 [set_frame_access (frame_slot 8 true false)
                                   (mkLIR 0 kX86Mov32RM [1; 4; 8])])
  /\ exists new,
       new <> []
       /\ emit cu0 [set_frame_access (frame_slot 8 true false)
                                     (mkLIR 0 kX86Mov32RM [1; 4; 8])]
          = emit cu0 new
       /\ Forall (fun l => exists slot,
                    frame_access l
                    = Some {| slot_index := slot; is_load := true;
                              is_wide := false |}) new.
Proof.
  split; [reflexivity|].
  exact (proj1 (frame_access_annotation (T:=art_x86) 4 255 0 8 1 255 kWord
                  0 cu0)
           0%nat
           (emit cu0 [set_frame_access (frame_slot 8 true false)
                                       (mkLIR 0 kX86Mov32RM [1; 4; 8])])
           eq_refl).
Defined.

Lemma wide_pair_frame_slots_witness :
  is_wide_size kLong = true /\ @X86_FPREG art_x86 4 = false
  /\ Z.land 8 3 = 0
  /\ LoadBaseIndexedDisp (T:=art_x86) 4 255 0 8 4 2 kLong 0 cu0
     = Ok (1%nat,
           emit cu0
             [set_frame_access (frame_slot 12 true true)
                               (mkLIR 0 kX86Mov32RM [2; 4; 12]);
              set_frame_access (frame_slot 8 true true)
                               (mkLIR 0 kX86Mov32RM [4; 4; 8])]).
Proof.
  split; [reflexivity|]. split; [reflexivity|]. split; [reflexivity|].
  exact (proj1 (wide_pair_frame_slots (T:=art_x86) 0 8 4 2 kLong 0 cu0
                  eq_refl eq_refl eq_refl)).
Defined.

Lemma wide_pair_returns_low_half_witness :
  is_wide_size kLong = true /\ @X86_FPREG art_x86 0 = false
  /\ Z.land 8 3 = 0
  /\ exists cu',
       LoadBaseIndexedDisp (T:=art_x86) 0 255 0 8 0 2 kLong 0 cu0
       = Ok (1%nat, cu')
       /\ shape <$> (lirs cu' !! 1%nat) = Some (kX86Mov32RM, [0; 0; 8]).
Proof.
  split; [reflexivity|]. split; [reflexivity|]. split; [reflexivity|].
  exact (proj1 (wide_pair_returns_low_half (T:=art_x86) 0 255 0 8 0 2 kLong 0
                  cu0 eq_refl eq_refl eq_refl)).
Defined.

Lemma OpRegReg_unary_witness :
  exists cu',
    OpRegReg (T:=art_x86) kOpMvn 3 3 cu0 = Ok (1%nat, cu')
    /\ exists cp,
         cu' = emit cu0 [cp; mkLIR 0 kX86Not32R [3]]
         /\ is_copy_opcode (opcode cp) = true
         /\ operands cp = [3; 3]
         /\ is_nop cp = true
         /\ 1%nat = 1%nat.
Proof.
  eexists. split; [reflexivity|].
  exact (proj1 (OpRegReg_unary (T:=art_x86) kOpMvn kX86Not32R 3 3 cu0
                  (or_introl (conj eq_refl eq_refl)))
           _ _ eq_refl).
Defined.

Lemma selector_domains_witness :
  (exists res cu', OpRegMem kOp2Char 0 5 16 cu0 = Ok (res, cu'))
  /\ ~ (exists res cu', OpRegMem kOpMul 0 5 16 cu0
                        = Ok (res, cu'))
  /\ ~ (exists res cu', OpRegImm (T:=art_x86) kOpSbc 0 1 cu0 = Ok (res, cu')).
Proof.
  split; [|split].
  - apply (proj2 (proj2 (selector_domains (T:=art_x86) kOp2Char 0 5 16 cu0))).
    repeat first [apply list_elem_of_here | apply list_elem_of_further].
  - intros H.
    apply (proj2 (proj2 (selector_domains (T:=art_x86) kOpMul 0 5 16 cu0)))
      in H.
    repeat (apply elem_of_cons in H as [H|H]; [discriminate H|]).
    apply elem_of_nil in H. exact H.
  - intros H.
    apply (proj1 (proj2 (selector_domains (T:=art_x86) kOpSbc 0 5 1 cu0)))
      in H.
    destruct H as [_ H].
    repeat (apply elem_of_cons in H as [H|H]; [discriminate H|]).
    apply elem_of_nil in H. exact H.
Defined.

Lemma indexed_wrappers_return_witness :
  @X86_FPREG art_x86 1 = false
  /\ (exists res cu',
        LoadBaseIndexed (T:=art_x86) 0 3 1 2 kSignedHalf cu0 = Ok (res, cu'))
  /\ is_wide_size kLong = true
  /\ code (StoreBaseIndexed (T:=art_x86) 0 3 1 2 kLong) cu0
     = Some [(kX86Mov32AR, [0; 3; 2; 0; 1]);
             (kX86Mov32AR, [0; 3; 2; 4; 255])].
Proof.
  split; [reflexivity|]. split.
  - exact (proj1 (indexed_wrappers_return (T:=art_x86) 0 3 1 2 kSignedHalf cu0
                    eq_refl)).
  - split; [reflexivity|].
    exact (proj2 (proj2 (indexed_wrappers_return (T:=art_x86) 0 3 1 2 kLong
                           cu0 eq_refl)) eq_refl).
Defined.
